(** * sql2struct: a shallow embedding of [main.go] and its specification

    The program reads one SQL [CREATE TABLE] text, extracts the table name and
    the column descriptors with regular expressions, and renders Go source for
    a PO struct, an entity struct and the two conversion functions.

    Conventions of the embedding.
    - A Go [string] is a sequence of bytes: [str := list ascii].  Literals are
      written as Rocq string literals and coerced ([lit]); a Rocq literal holds
      the UTF-8 bytes of its text, exactly as a Go literal does.
    - The library functions the program calls ([strings], [unicode], [fmt],
      [regexp]) are modelled on bytes.  Case mapping, [strings.Title] and the
      [%-Ns] padding coincide with Go on ASCII text; bytes above 127 are left
      alone and counted as one column each.  Every identifier and type that
      reaches them through [Parse] is ASCII, since [\w], [\d] and [[A-Za-z]]
      are ASCII classes in Go.
    - The methods of [*SQLParser] are written in a small state monad over the
      parser record; a run-time panic is an outcome of its own.
    - The two file operations are fields of an [OS] record. *)

From Stdlib Require Import Ascii String.
From stdpp Require Import base list gmap strings.

Set Default Proof Using "Type".

(** ** Strings *)

Abbreviation str := (list ascii).

Definition lit (s : string) : str := list_ascii_of_string s.
Coercion lit : string >-> list.

Definition streq (a b : str) : bool := bool_decide (a = b).

Definition code (c : ascii) : nat := nat_of_ascii c.

Definition chr (n : nat) : ascii := ascii_of_nat n.

Definition NL : str := [chr 10].
Definition TAB : str := [chr 9].
Definition DQ : str := [chr 34].

Definition between (lo hi : nat) (c : ascii) : bool :=
  (lo <=? code c) && (code c <=? hi).

(** [unicode.IsUpper], [unicode.IsLower], [unicode.IsDigit] on ASCII. *)
Definition isUpper (c : ascii) : bool := between 65 90 c.
Definition isLower (c : ascii) : bool := between 97 122 c.
Definition isDigit (c : ascii) : bool := between 48 57 c.
Definition isLetter (c : ascii) : bool := isUpper c || isLower c.

(** [unicode.ToLower] and [unicode.ToUpper] (also [unicode.ToTitle]) on ASCII. *)
Definition toLower (c : ascii) : ascii :=
  if isUpper c then chr (code c + 32) else c.
Definition toUpper (c : ascii) : ascii :=
  if isLower c then chr (code c - 32) else c.

(** [strings.ToUpper], [strings.ToLower]. *)
Definition ToUpper (s : str) : str := map toUpper s.
Definition ToLower (s : str) : str := map toLower s.

(** [strings.HasPrefix]. *)
Fixpoint HasPrefix (s prefix : str) {struct prefix} : bool :=
  match prefix, s with
  | [], _ => true
  | _ :: _, [] => false
  | a :: prefix', b :: s' => bool_decide (a = b) && HasPrefix s' prefix'
  end.

(** [strings.Contains]. *)
Fixpoint Contains (s substr : str) : bool :=
  HasPrefix s substr ||
  match s with
  | [] => false
  | _ :: s' => Contains s' substr
  end.

(** [strings.TrimPrefix]. *)
Definition TrimPrefix (s prefix : str) : str :=
  if HasPrefix s prefix then drop (length prefix) s else s.

(** [strings.Split(s, sep)] for a separator of one byte, which is what both
    call sites pass.  The result is never empty: [Split "" sep = [""]]. *)
Fixpoint Split (s : str) (sep : ascii) : list str :=
  match s with
  | [] => [[]]
  | c :: s' =>
      if bool_decide (c = sep) then [] :: Split s' sep
      else match Split s' sep with
           | [] => [[c]]
           | p :: ps => (c :: p) :: ps
           end
  end.

(** [strings.Join]. *)
Fixpoint Join (parts : list str) (sep : str) : str :=
  match parts with
  | [] => []
  | [p] => p
  | p :: ps => p ++ sep ++ Join ps sep
  end.

(** [strings.Title]: every letter that follows a separator (or starts the
    string) is mapped to title case.  ASCII letters, digits and the underscore
    are not separators; every other ASCII byte is. *)
Definition isSeparator (c : ascii) : bool :=
  if code c <=? 127
  then negb (isDigit c || isLower c || isUpper c || bool_decide (c = "_"%char))
  else false.

Fixpoint Title_from (prev : ascii) (s : str) : str :=
  match s with
  | [] => []
  | c :: s' => (if isSeparator prev then toUpper c else c) :: Title_from c s'
  end.

Definition Title (s : str) : str := Title_from " "%char s.

(** The verb [%-Ns] of [fmt.Sprintf]: pad with spaces on the right up to
    width [n]; longer text is not cut. *)
Definition padRight (n : nat) (s : str) : str :=
  s ++ replicate (n - length s) " "%char.

(** ** Regular expressions

    The subset of Go's [regexp] syntax the program uses.  Go finds the
    leftmost match and, among the matches starting there, the one a
    backtracking search would find first: a greedy repetition tries the
    longest run first, a lazy one the shortest, an alternation its left
    branch first.  Repetition is only ever applied to a single character
    class in this program, which keeps the matcher structural.

    Go matches runes, the model bytes.  For the patterns below the two agree:
    a byte above 127 belongs to [.] and [\S] and to no other class, and every
    class or literal that follows [.] or [\S] in a pattern is ASCII, so no
    match can end inside a multi-byte rune. *)

Inductive regex : Type :=
| Eps                                 (* the empty pattern *)
| Class (p : ascii -> bool)           (* one byte of a class, or a literal byte *)
| Cat (r1 r2 : regex)                 (* r1 r2 *)
| Alt (r1 r2 : regex)                 (* r1|r2 *)
| Star (p : ascii -> bool)            (* p*   greedy *)
| StarLazy (p : ascii -> bool)        (* p*?  lazy *)
| Opt (r : regex)                     (* r?   greedy *)
| Group (n : nat) (r : regex)         (* the n-th capturing group *)
| WordBoundary.                       (* \b *)

Definition Plus (p : ascii -> bool) : regex := Cat (Class p) (Star p).

Definition Chr (c : ascii) : regex := Class (fun x => bool_decide (x = c)).

(** A literal byte under the flag [(?i)]; none of the letters used with it
    (those of NOT, NULL and DEFAULT) has a non-ASCII case variant. *)
Definition ChrFold (c : ascii) : regex :=
  Class (fun x => bool_decide (toUpper x = toUpper c)).

Definition Lit (s : str) : regex := foldr (fun c r => Cat (Chr c) r) Eps s.
Definition LitFold (s : str) : regex := foldr (fun c r => Cat (ChrFold c) r) Eps s.

(** The Perl classes, ASCII-only in Go. *)
Definition cls_d : ascii -> bool := isDigit.
Definition cls_w (c : ascii) : bool :=
  isDigit c || isLetter c || bool_decide (c = "_"%char).
Definition cls_s (c : ascii) : bool :=
  bool_decide (code c = 9) || bool_decide (code c = 10) ||
  bool_decide (code c = 12) || bool_decide (code c = 13) ||
  bool_decide (code c = 32).
Definition cls_S (c : ascii) : bool := negb (cls_s c).
Definition cls_dot (c : ascii) : bool := negb (bool_decide (code c = 10)).
Definition cls_alpha : ascii -> bool := isLetter.

(** The matcher threads the captures, the byte before the cursor (for [\b])
    and the rest of the input to a continuation. *)
Abbreviation caps := (list str).
Definition kont (R : Type) : Type := caps -> option ascii -> str -> option R.

Definition isWordBefore (prev : option ascii) : bool :=
  match prev with Some c => cls_w c | None => false end.
Definition isWordAfter (s : str) : bool :=
  match s with c :: _ => cls_w c | [] => false end.

Section Matcher.
Context {R : Type}.

Fixpoint star_greedy (p : ascii -> bool) (k : option ascii -> str -> option R)
    (prev : option ascii) (s : str) : option R :=
  match s with
  | c :: s' =>
      if p c then
        match star_greedy p k (Some c) s' with
        | Some r => Some r
        | None => k prev s
        end
      else k prev s
  | [] => k prev s
  end.

Fixpoint star_lazy (p : ascii -> bool) (k : option ascii -> str -> option R)
    (prev : option ascii) (s : str) : option R :=
  match k prev s with
  | Some r => Some r
  | None =>
      match s with
      | c :: s' => if p c then star_lazy p k (Some c) s' else None
      | [] => None
      end
  end.

Fixpoint exec (r : regex) (k : kont R) (cs : caps) (prev : option ascii)
    (s : str) : option R :=
  match r with
  | Eps => k cs prev s
  | Class p =>
      match s with
      | c :: s' => if p c then k cs (Some c) s' else None
      | [] => None
      end
  | Cat r1 r2 => exec r1 (fun cs' prev' s' => exec r2 k cs' prev' s') cs prev s
  | Alt r1 r2 =>
      match exec r1 k cs prev s with
      | Some x => Some x
      | None => exec r2 k cs prev s
      end
  | Star p => star_greedy p (k cs) prev s
  | StarLazy p => star_lazy p (k cs) prev s
  | Opt r1 =>
      match exec r1 k cs prev s with
      | Some x => Some x
      | None => k cs prev s
      end
  | Group n r1 =>
      exec r1 (fun cs' prev' s' =>
                 k (<[n := take (length s - length s') s]> cs') prev' s')
           cs prev s
  | WordBoundary =>
      if xorb (isWordBefore prev) (isWordAfter s) then k cs prev s else None
  end.
End Matcher.

(** A compiled expression: the pattern and its number of capturing groups. *)
Record Regexp : Type := MustCompile { pattern : regex; numSubexp : nat }.

(** One match attempt anchored at the cursor: the submatch slice (index 0 is
    the whole match, a group that took no part is empty) and the input left
    after the match. *)
Definition matchAt (re : Regexp) (prev : option ascii) (s : str) : option (list str * str) :=
  exec (pattern re)
       (fun cs _ s' => Some (<[0 := take (length s - length s') s]> cs, s'))
       (replicate (S (numSubexp re)) []) prev s.

(** The leftmost match at or after the cursor. *)
Fixpoint search (re : Regexp) (prev : option ascii) (s : str) : option (list str * str) :=
  match matchAt re prev s with
  | Some m => Some m
  | None =>
      match s with
      | [] => None
      | c :: s' => search re (Some c) s'
      end
  end.

(** [FindStringSubmatch]: nil when there is no match. *)
Definition FindStringSubmatch (re : Regexp) (s : str) : list str :=
  match search re None s with
  | Some (m, _) => m
  | None => []
  end.

(** [FindString]: the text of the leftmost match, empty when there is none. *)
Definition FindString (re : Regexp) (s : str) : str :=
  match search re None s with
  | Some (m, _) => default [] (m !! 0)
  | None => []
  end.

(** [MatchString]. *)
Definition MatchString (re : Regexp) (s : str) : bool :=
  match search re None s with
  | Some _ => true
  | None => false
  end.

(** [FindAllStringSubmatch(s, -1)]: successive non-overlapping matches, left
    to right.  [skip] counts the bytes still covered by the previous match;
    [abut] says that the cursor sits at the end of the previous match, where
    an empty match is ignored. *)
Fixpoint findAll (re : Regexp) (skip : nat) (abut : bool) (prev : option ascii)
    (s : str) : list (list str) :=
  match skip with
  | S n =>
      match s with
      | [] => []
      | c :: s' => findAll re n true (Some c) s'
      end
  | 0 =>
      match matchAt re prev s with
      | Some (m, rest) =>
          let width := length s - length rest in
          let tail :=
            match s with
            | [] => []
            | c :: s' => findAll re (width - 1) (bool_decide (width = 1)) (Some c) s'
            end in
          if bool_decide (width = 0) && abut then tail else m :: tail
      | None =>
          match s with
          | [] => []
          | c :: s' => findAll re 0 false (Some c) s'
          end
      end
  end.

Definition FindAllStringSubmatch (re : Regexp) (s : str) : list (list str) :=
  findAll re 0 false None s.

(** ** The patterns of [Parse] *)

Declare Scope regex_scope.
Delimit Scope regex_scope with re.
Infix "·" := Cat (at level 40, left associativity) : regex_scope.

(** [CREATE TABLE \S+\.(\w+)(?:_\{[a-zA-Z]+\})?] *)
Definition tableNameRe : Regexp :=
  MustCompile
    (Lit "CREATE TABLE " · Plus cls_S · Chr "." · Group 1 (Plus cls_w) ·
     Opt (Chr "_" · Chr "{" · Plus cls_alpha · Chr "}"))%re
    1.

(** [`(\w+)`\s+([A-Za-z]+\d*(\(\d+\))?)\s+(.*?)\s+COMMENT\s+'(.*?)'] *)
Definition fieldRe : Regexp :=
  MustCompile
    (Chr "`" · Group 1 (Plus cls_w) · Chr "`" · Plus cls_s ·
     Group 2 (Plus cls_alpha · Star cls_d ·
              Opt (Group 3 (Chr "(" · Plus cls_d · Chr ")"))) ·
     Plus cls_s ·
     Group 4 (StarLazy cls_dot) · Plus cls_s · Lit "COMMENT" · Plus cls_s ·
     Chr "'" · Group 5 (StarLazy cls_dot) · Chr "'")%re
    5.

(** [(?i)\bNOT\s+NULL\b] *)
Definition notNullRegex : Regexp :=
  MustCompile
    (WordBoundary · LitFold "NOT" · Plus cls_s · LitFold "NULL" · WordBoundary)%re
    0.

(** [(?i)(DEFAULT\s+NULL|NULL\b)] *)
Definition nullRegex : Regexp :=
  MustCompile
    (Group 1 (Alt (LitFold "DEFAULT" · Plus cls_s · LitFold "NULL")
                  (LitFold "NULL" · WordBoundary)))%re
    1.

(** [\d+] *)
Definition digitsRe : Regexp := MustCompile (Plus cls_d) 0.

(** ** Naming transformer *)

(** The loop [for i, r := range s] of [ToSnakeCase], from byte index [i]. *)
Fixpoint ToSnakeCase_from (i : nat) (s : str) : str :=
  match s with
  | [] => []
  | r :: s' =>
      (if isUpper r
       then (if 0 <? i then ["_"%char] else []) ++ [toLower r]
       else [r]) ++ ToSnakeCase_from (S i) s'
  end.

Definition ToSnakeCase (s : str) : str := ToSnakeCase_from 0 s.

(** The value of [result] in [ToPascalCase] before the marker letter is
    looked at. *)
Definition pascalJoined (s : str) : str :=
  Join (map Title (Split s "_")) "".

Definition ToPascalCase (s : str) : str :=
  let result := pascalJoined s in
  if (0 <? length result) && HasPrefix result "F" then
    let remaining := drop 1 result in
    match remaining with
    | [] => remaining
    | c :: rest => ToUpper [c] ++ rest
    end
  else result.

(** ** Data model *)

Record FieldMeta : Type := mkFieldMeta {
  FieldName : str;
  FieldType : str;
  Comment : str;
  Validate : str;
  OriginalField : str
}.

Record SQLParser : Type := mkSQLParser {
  TableName : str;
  StructName : str;
  SecondStructName : str;
  Fields : list FieldMeta;
  TypeMappings : gmap str str;
  NullableTypeMappings : gmap str str
}.

(** Indexing a Go map: the zero value when the key is absent. *)
Definition mapIndex (m : gmap str str) (k : str) : str := default [] (m !! k).

Definition defaultTypeMappings : gmap str str :=
  list_to_map
    [ (lit "INT", lit "int32"); (lit "SMALLINT", lit "int32");
      (lit "TINYINT", lit "int32"); (lit "MEDIUMINT", lit "int32");
      (lit "BIGINT", lit "int64"); (lit "VARCHAR", lit "string");
      (lit "CHAR", lit "string"); (lit "TEXT", lit "string");
      (lit "JSON", lit "string"); (lit "DATETIME", lit "datetime.DateTime");
      (lit "DOUBLE", lit "float64"); (lit "FLOAT", lit "float32") ].

Definition defaultNullableTypeMappings : gmap str str :=
  list_to_map
    [ (lit "INT", lit "sql.NullInt32"); (lit "SMALLINT", lit "sql.NullInt32");
      (lit "TINYINT", lit "sql.NullInt32"); (lit "MEDIUMINT", lit "sql.NullInt32");
      (lit "BIGINT", lit "sql.NullInt64"); (lit "VARCHAR", lit "sql.NullString");
      (lit "CHAR", lit "sql.NullString"); (lit "TEXT", lit "sql.NullString");
      (lit "JSON", lit "sql.NullString");
      (lit "DATETIME", lit "datetime.NullDateTime");
      (lit "DOUBLE", lit "sql.NullFloat64"); (lit "FLOAT", lit "sql.NullFloat32") ].

Definition NewSQLParser (structNames : list str) : SQLParser :=
  {| TableName := [];
     StructName := default [] (structNames !! 0);
     SecondStructName := default [] (structNames !! 1);
     Fields := [];
     TypeMappings := defaultTypeMappings;
     NullableTypeMappings := defaultNullableTypeMappings |}.

(** ** The method monad: parser state, results and panics *)

Inductive panic : Type :=
| IndexOutOfRange (i len : nat)
| SliceOutOfRange (bound len : nat).

Inductive result (A : Type) : Type :=
| Val (a : A)
| Panicked (e : panic).
Arguments Val {A} a.
Arguments Panicked {A} e.

Definition M (A : Type) : Type := SQLParser -> result A * SQLParser.

Definition ret {A} (a : A) : M A := fun p => (Val a, p).

Definition bind {A B} (c : M A) (f : A -> M B) : M B :=
  fun p =>
    match c p with
    | (Val a, p') => f a p'
    | (Panicked e, p') => (Panicked e, p')
    end.

Definition gets {A} (f : SQLParser -> A) : M A := fun p => (Val (f p), p).

Definition modify (f : SQLParser -> SQLParser) : M unit := fun p => (Val tt, f p).

Definition lift {A} (r : result A) : M A := fun p => (r, p).

Declare Scope method_scope.
Delimit Scope method_scope with M.
Notation "x <- c ;; k" := (bind c (fun x => k))
  (at level 100, c at next level, k at level 200, right associativity) : method_scope.
Notation "c ;; k" := (bind c (fun _ => k))
  (at level 100, k at level 200, right associativity) : method_scope.

Fixpoint forEach {A} (l : list A) (body : A -> M unit) : M unit :=
  match l with
  | [] => ret tt
  | x :: l' => (body x ;; forEach l' body)%M
  end.

(** [l[i]] on a slice of strings. *)
Definition index (l : list str) (i : nat) : result str :=
  match l !! i with
  | Some x => Val x
  | None => Panicked (IndexOutOfRange i (length l))
  end.

(** [s[:n]] and [s[n:]] on a string. *)
Definition sliceTo (s : str) (n : nat) : result str :=
  if n <=? length s then Val (take n s) else Panicked (SliceOutOfRange n (length s)).
Definition sliceFrom (s : str) (n : nat) : result str :=
  if n <=? length s then Val (drop n s) else Panicked (SliceOutOfRange n (length s)).

Definition setTableName (v : str) (p : SQLParser) : SQLParser :=
  {| TableName := v; StructName := StructName p;
     SecondStructName := SecondStructName p; Fields := Fields p;
     TypeMappings := TypeMappings p;
     NullableTypeMappings := NullableTypeMappings p |}.

Definition setStructName (v : str) (p : SQLParser) : SQLParser :=
  {| TableName := TableName p; StructName := v;
     SecondStructName := SecondStructName p; Fields := Fields p;
     TypeMappings := TypeMappings p;
     NullableTypeMappings := NullableTypeMappings p |}.

Definition appendField (f : FieldMeta) (p : SQLParser) : SQLParser :=
  {| TableName := TableName p; StructName := StructName p;
     SecondStructName := SecondStructName p; Fields := Fields p ++ [f];
     TypeMappings := TypeMappings p;
     NullableTypeMappings := NullableTypeMappings p |}.

Definition setValidate (v : str) (f : FieldMeta) : FieldMeta :=
  {| FieldName := FieldName f; FieldType := FieldType f; Comment := Comment f;
     Validate := v; OriginalField := OriginalField f |}.

(** ** Errors and the operating system *)

Inductive error : Type :=
| OsError (msg : str)
| Errorf (prefix : str) (cause : error).   (* fmt.Errorf("<prefix>%w", cause) *)

Record OS : Type := mkOS {
  ReadFile : str -> str + error;
  WriteFile : str -> str -> option error;
  filepath_Join : str -> str -> str
}.

(** ** Schema extractor *)

Definition validateMax (size : str) : str :=
  lit "validate:" ++ DQ ++ lit "max=" ++ size ++ DQ.
Definition validateOmitempty : str :=
  lit "validate:" ++ DQ ++ lit "omitempty" ++ DQ.

(** The body of the loop over the column matches. *)
Definition parseColumn (m : list str) : M unit :=
  if length m <? 4 then ret tt
  else
    (m2 <- lift (index m 2) ;;
     head <- lift (index (Split m2 "(") 0) ;;
     let sqlType := ToUpper head in
     otherPart <- lift (index m 4) ;;
     comment <- lift (index m 5) ;;
     let hasNotNull := MatchString notNullRegex otherPart in
     let isNullable :=
       if negb hasNotNull then MatchString nullRegex otherPart else false in
     goType <- (if isNullable
               then gets (fun p => mapIndex (NullableTypeMappings p) sqlType)
               else gets (fun p => mapIndex (TypeMappings p) sqlType)) ;;
     m1 <- lift (index m 1) ;;
     let field :=
       {| FieldName := ToPascalCase m1; FieldType := goType;
          Comment := comment; Validate := []; OriginalField := m1 |} in
     let field :=
       if HasPrefix m2 "VARCHAR"
       then setValidate (validateMax (FindString digitsRe m2)) field
       else if Contains otherPart "加密"
            then setValidate validateOmitempty field
            else field in
     modify (appendField field))%M.

Definition Parse (sqlContent : str) : M (option error) :=
  let tableMatch := FindStringSubmatch tableNameRe sqlContent in
  ((if 0 <? length tableMatch then
      (name <- lift (index tableMatch 1) ;;
       modify (setTableName name) ;;
       sn <- gets StructName ;;
       if streq sn "" then
         (tn <- gets TableName ;; modify (setStructName (ToPascalCase tn)))
       else ret tt)
    else ret tt) ;;
   forEach (FindAllStringSubmatch fieldRe sqlContent) parseColumn ;;
   ret None)%M.

Definition LoadSQLFile (os : OS) (filePath : str) : M (option error) :=
  match ReadFile os filePath with
  | inr err => ret (Some (Errorf "读取SQL文件失败: " err))
  | inl content => Parse content
  end.

(** ** Code emitter *)

Definition rbind {A B} (r : result A) (f : A -> result B) : result B :=
  match r with
  | Val a => f a
  | Panicked e => Panicked e
  end.

Declare Scope result_scope.
Delimit Scope result_scope with R.
Notation "x <- c ;; k" := (rbind c (fun x => k))
  (at level 100, c at next level, k at level 200, right associativity) : result_scope.

(** A loop [for _, field := range p.Fields] whose body ends in
    [builder.WriteString(line)]: the builder is threaded through. *)
Fixpoint writeEach (builder : str) (fields : list FieldMeta)
    (line : FieldMeta -> result str) : result str :=
  match fields with
  | [] => Val builder
  | f :: fields' =>
      (l <- line f ;; writeEach (builder ++ l) fields' line)%R
  end.

(** The line of one field in the PO struct. *)
Definition poFieldLine (field : FieldMeta) : str :=
  let line :=
    TAB ++ padRight 30 (FieldName field) ++ lit " " ++
    padRight 20 (FieldType field) ++ lit " `db:" ++ DQ ++
    OriginalField field ++ DQ in
  let line :=
    if negb (streq (Validate field) "") then line ++ lit " " ++ Validate field
    else line in
  let line := line ++ lit "`" ++ (lit " // " ++ Comment field) in
  line ++ NL.

(** [strings.ToLower(field.FieldName[:1]) + field.FieldName[1:]] *)
Definition privateFieldOf (field : FieldMeta) : result str :=
  (first <- sliceTo (FieldName field) 1 ;;
   rest <- sliceFrom (FieldName field) 1 ;;
   Val (ToLower first ++ rest))%R.

Definition nullableToBasic : gmap str str :=
  list_to_map
    [ (lit "sql.NullString", lit "string"); (lit "sql.NullInt32", lit "int32");
      (lit "sql.NullInt64", lit "int64"); (lit "sql.NullFloat32", lit "float32");
      (lit "sql.NullFloat64", lit "float64");
      (lit "datetime.NullDateTime", lit "time.Time") ].

(** The type of a field in the entity struct. *)
Definition entityFieldType (fieldType : str) : str :=
  match nullableToBasic !! fieldType with
  | Some basicType => basicType
  | None => if streq fieldType "datetime.DateTime" then lit "time.Time" else fieldType
  end.

(** The line of one field in the entity struct. *)
Definition entityFieldLine (field : FieldMeta) : result str :=
  (privateField <- privateFieldOf field ;;
   let fieldType := entityFieldType (FieldType field) in
   let line :=
     TAB ++ padRight 30 privateField ++ lit " " ++ padRight 20 fieldType ++
     lit " // " ++ Comment field in
   Val (line ++ NL))%R.

(** The expression that reads a PO field in the PO-to-entity function. *)
Definition toEntityAccess (field : FieldMeta) : str :=
  let fieldAccess := FieldName field in
  let t := FieldType field in
  if streq t "sql.NullString" then fieldAccess ++ lit ".String"
  else if streq t "datetime.NullDateTime" then fieldAccess ++ lit ".Time.Time()"
  else if streq t "datetime.DateTime" then fieldAccess ++ lit ".Time()"
  else if streq t "sql.NullInt32" then fieldAccess ++ lit ".Int32"
  else if streq t "sql.NullInt64" then fieldAccess ++ lit ".Int64"
  else if streq t "sql.NullFloat64" then fieldAccess ++ lit ".Float64"
  else fieldAccess.

(** One builder call of the PO-to-entity function. *)
Definition toEntityLine (field : FieldMeta) : result str :=
  (privateField <- privateFieldOf field ;;
   let fieldAccess := toEntityAccess field in
   Val (TAB ++ TAB ++ lit "With" ++ Title privateField ++ lit "(p." ++
        fieldAccess ++ lit ")." ++ NL))%R.

(** The expression that fills a PO field in the entity-to-PO function. *)
Definition toPoAccess (field : FieldMeta) (privateField : str) : str :=
  let fieldAccess := lit "e." ++ Title privateField ++ lit "()" in
  let t := FieldType field in
  if streq t "sql.NullString" then
    lit "sql.NullString{String: " ++ fieldAccess ++ lit ", Valid: true}"
  else if streq t "datetime.NullDateTime" then
    lit "TimeToNullDateTime(" ++ fieldAccess ++ lit ")"
  else if streq t "datetime.DateTime" then
    lit "datetime.NewDateTime(" ++ fieldAccess ++ lit ")"
  else if streq t "sql.NullInt32" || streq t "sql.NullInt64" ||
          streq t "sql.NullFloat64" then
    let baseType := TrimPrefix (FieldType field) "sql.Null" in
    FieldType field ++ lit "{" ++ Title baseType ++ lit ": " ++ fieldAccess ++
    lit ", Valid: true}"
  else fieldAccess.

(** One entry of the struct literal of the entity-to-PO function. *)
Definition toPoLine (field : FieldMeta) : result str :=
  (privateField <- privateFieldOf field ;;
   let fieldAccess := toPoAccess field privateField in
   Val (TAB ++ TAB ++ padRight 15 (FieldName field) ++ lit ": " ++ fieldAccess ++
        lit "," ++ NL))%R.

(** The raw string literal written when [needTimeFunc] holds. *)
Definition timeFuncText : str :=
  lit "// TimeToNullDateTime Time 转成 datetime.NullDateTime" ++ NL ++
  lit "func TimeToNullDateTime(t time.Time) datetime.NullDateTime {" ++ NL ++
  TAB ++ lit "if !t.IsZero() {" ++ NL ++
  TAB ++ TAB ++
  lit "return datetime.NullDateTime{Time: datetime.NewDateTime(t), Valid: true}" ++ NL ++
  TAB ++ lit "}" ++ NL ++
  TAB ++ lit "return datetime.NullDateTime{Valid: false}" ++ NL ++
  lit "}".

(** The loop that sets [needTimeFunc]. *)
Definition needTimeFunc (fields : list FieldMeta) : bool :=
  existsb (fun field => streq (FieldType field) "datetime.NullDateTime") fields.

Definition poHeader (p : SQLParser) : str :=
  (lit "package po" ++ NL ++ NL) ++
  (lit "import (" ++ NL ++ TAB ++ DQ ++
   lit "git.woa.com/prd_base_pay_go/paycomm/datetime" ++ DQ ++ NL ++ TAB ++ DQ ++
   lit "github.com/go-playground/validator/v10" ++ DQ ++ NL ++ lit ")" ++ NL ++ NL) ++
  (lit "// " ++ StructName p ++ lit " Po结构体" ++ NL) ++
  (lit "type " ++ StructName p ++ lit " struct {" ++ NL).

Definition entityHeader (p : SQLParser) : str :=
  (lit "package entity" ++ NL ++ NL) ++
  (lit "//go:generate entitytool -source=$GOFILE -entity=" ++ SecondStructName p ++
   lit " " ++ NL ++ NL) ++
  (lit "// " ++ SecondStructName p ++ lit " entity结构体" ++ NL) ++
  (lit "type " ++ SecondStructName p ++ lit " struct {" ++ NL).

Definition validateStub (p : SQLParser) : str :=
  (lit "func (e *" ++ SecondStructName p ++ lit ") Validate() error {" ++ NL) ++
  (TAB ++ lit "return nil" ++ NL ++ lit "}" ++ NL ++ NL).

Definition toEntityHeader (p : SQLParser) : str :=
  (lit "// To" ++ SecondStructName p ++ lit "Entity po to entity" ++ NL) ++
  (lit "func To" ++ SecondStructName p ++ lit "Entity(p *po." ++ StructName p ++
   lit ") (" ++ lit "*entity." ++ SecondStructName p ++ lit ", error) {" ++ NL) ++
  (TAB ++ lit "return entity.New" ++ SecondStructName p ++ lit "Builder()." ++ NL).

Definition toPoHeader (p : SQLParser) : str :=
  (lit "// To" ++ StructName p ++ lit " entity to po" ++ NL) ++
  (lit "func To" ++ StructName p ++ lit "(e *entity." ++ SecondStructName p ++
   lit ") (" ++ lit "*po." ++ StructName p ++ lit ", error) {" ++ NL) ++
  (TAB ++ lit "return &po." ++ StructName p ++ lit "{" ++ NL).

(** The text accumulated in [builder] by [GenerateStruct], or the panic that
    interrupts it. *)
Definition renderStruct (p : SQLParser) : result str :=
  let builder := poHeader p in
  (builder <- writeEach builder (Fields p) (fun field => Val (poFieldLine field)) ;;
   let builder := builder ++ (lit "}" ++ NL ++ NL ++ NL) in
   if negb (streq (SecondStructName p) "") then
     let builder := builder ++ entityHeader p in
     builder <- writeEach builder (Fields p) entityFieldLine ;;
     let builder := builder ++ (lit "}" ++ NL ++ NL) in
     let builder := builder ++ validateStub p in
     let builder := builder ++ toEntityHeader p in
     builder <- writeEach builder (Fields p) toEntityLine ;;
     let builder := builder ++ (TAB ++ TAB ++ lit "Build()" ++ NL ++ lit "}" ++ NL ++ NL) in
     let builder := builder ++ toPoHeader p in
     builder <- writeEach builder (Fields p) toPoLine ;;
     let builder := builder ++ (TAB ++ lit "}, nil" ++ NL ++ lit "}" ++ NL ++ NL) in
     if needTimeFunc (Fields p) then Val (builder ++ timeFuncText)
     else Val builder
   else Val builder)%R.

Definition GetOutputPath (os : OS) (outputDir : str) : M str :=
  (second <- gets SecondStructName ;;
   ret (filepath_Join os outputDir (ToSnakeCase second ++ lit "_template.go")))%M.

Definition GenerateStruct (os : OS) (outputDir : str) : M (str * option error) :=
  (second <- gets SecondStructName ;;
   let fileName :=
     filepath_Join os outputDir (ToSnakeCase second ++ lit "_template.go") in
   p <- gets id ;;
   text <- lift (renderStruct p) ;;
   match WriteFile os fileName text with
   | Some err => ret ([], Some (Errorf "写入文件失败: " err))
   | None => ret (fileName, None)
   end)%M.

(** ** The emitted helper, read as a function

  [TimeToNullDateTime] as the emitted text defines it, over an abstract
  [time.Time] and the [datetime] package of the generated code. *)
Section EmittedHelper.
Context {Time DateTime : Type}.
Context (IsZero : Time -> bool) (NewDateTime : Time -> DateTime).
Context (zeroDateTime : DateTime).

Record NullDateTime : Type := mkNullDateTime {
  ndtTime : DateTime;
  ndtValid : bool
}.

Definition TimeToNullDateTime (t : Time) : NullDateTime :=
  if negb (IsZero t) then
    {| ndtTime := NewDateTime t; ndtValid := true |}
  else {| ndtTime := zeroDateTime; ndtValid := false |}.
End EmittedHelper.

(** * Definitions used to state the properties *)

(** ** Continuations *)

(** A continuation that, from captures of length [n], only returns results
    in [Q]. *)
Definition kont_ok {R : Type} (n : nat) (Q : R -> Prop) (k : kont R) : Prop :=
  forall cs prev s res, length cs = n -> k cs prev s = Some res -> Q res.

(** ** The descriptor of a column match *)

(** The first piece of [strings.Split(ty, "(")], upper-cased. *)
Definition sqlTypeOf (ty : str) : str :=
  ToUpper (default [] (Split ty "(" !! 0)).

Definition isNullableOf (otherPart : str) : bool :=
  if negb (MatchString notNullRegex otherPart)
  then MatchString nullRegex otherPart else false.

Definition validateOf (ty otherPart : str) : str :=
  if HasPrefix ty "VARCHAR" then validateMax (FindString digitsRe ty)
  else if Contains otherPart "加密" then validateOmitempty
  else [].

(** The descriptor [Parse] appends for a match with the given submatches. *)
Definition columnField (p : SQLParser) (name ty otherPart comment : str) : FieldMeta :=
  {| FieldName := ToPascalCase name;
     FieldType :=
       if isNullableOf otherPart
       then mapIndex (NullableTypeMappings p) (sqlTypeOf ty)
       else mapIndex (TypeMappings p) (sqlTypeOf ty);
     Comment := comment;
     Validate := validateOf ty otherPart;
     OriginalField := name |}.

Definition columnOfMatch (p : SQLParser) (m : list str) : FieldMeta :=
  columnField p (default [] (m !! 1)) (default [] (m !! 2))
              (default [] (m !! 4)) (default [] (m !! 5)).

(** The state after the table-name step of [Parse]. *)
Definition afterTableName (sqlContent : str) (p : SQLParser) : SQLParser :=
  match FindStringSubmatch tableNameRe sqlContent with
  | [] => p
  | tableMatch =>
      let name := default [] (tableMatch !! 1) in
      if streq (StructName p) ""
      then setStructName (ToPascalCase name) (setTableName name p)
      else setTableName name p
  end.

(** ** What the matcher accepts

    [Matches r prev w rest]: the pattern [r] matches the text [w] when [w] is
    preceded by the byte [prev] and followed by [rest].  The backtracking
    matcher finds a match exactly when one exists. *)

Fixpoint cursorAfter (prev : option ascii) (w : str) : option ascii :=
  match w with
  | [] => prev
  | c :: w' => cursorAfter (Some c) w'
  end.

Fixpoint Matches (r : regex) (prev : option ascii) (w rest : str) : Prop :=
  match r with
  | Eps => w = []
  | Class p => exists c, w = [c] /\ p c = true
  | Cat r1 r2 =>
      exists w1 w2, w = w1 ++ w2 /\ Matches r1 prev w1 (w2 ++ rest) /\
                    Matches r2 (cursorAfter prev w1) w2 rest
  | Alt r1 r2 => Matches r1 prev w rest \/ Matches r2 prev w rest
  | Star p | StarLazy p => forallb p w = true
  | Opt r1 => Matches r1 prev w rest \/ w = []
  | Group _ r1 => Matches r1 prev w rest
  | WordBoundary => w = [] /\ xorb (isWordBefore prev) (isWordAfter rest) = true
  end.

(** A continuation whose success does not depend on the captures. *)
Definition kont_uniform {R : Type} (k : kont R) : Prop :=
  forall cs cs' prev s, is_Some (k cs prev s) -> is_Some (k cs' prev s).

(** ** Text predicates: digit runs and NULL tokens *)

Fixpoint takeWhile (p : ascii -> bool) (s : str) : str :=
  match s with
  | c :: s' => if p c then c :: takeWhile p s' else []
  | [] => []
  end.

Fixpoint dropWhile (p : ascii -> bool) (s : str) : str :=
  match s with
  | c :: s' => if p c then dropWhile p s' else s
  | [] => []
  end.

(** The first maximal run of decimal digits of [s], empty when [s] has no
    digit. *)
Definition firstDigitRun (s : str) : str :=
  takeWhile isDigit (dropWhile (fun c => negb (isDigit c)) s).

(** [s] holds the words NOT and NULL, in any letter case, separated by white
    space, with a word boundary before NOT and after NULL. *)
Definition hasNotNullToken (s : str) : Prop :=
  exists pre w1 ws w2 post,
    s = pre ++ w1 ++ ws ++ w2 ++ post /\
    ToUpper w1 = lit "NOT" /\ ws <> [] /\ forallb cls_s ws = true /\
    ToUpper w2 = lit "NULL" /\
    isWordBefore (cursorAfter None pre) = false /\ isWordAfter post = false.

(** [s] holds DEFAULT, white space and NULL, in any letter case. *)
Definition hasDefaultNull (s : str) : Prop :=
  exists pre w1 ws w2 post,
    s = pre ++ w1 ++ ws ++ w2 ++ post /\
    ToUpper w1 = lit "DEFAULT" /\ ws <> [] /\ forallb cls_s ws = true /\
    ToUpper w2 = lit "NULL".

(** [s] holds the letters NULL, in any letter case, followed by a word
    boundary; what precedes them is not looked at. *)
Definition hasNullBeforeBoundary (s : str) : Prop :=
  exists pre w post,
    s = pre ++ w ++ post /\ ToUpper w = lit "NULL" /\ isWordAfter post = false.

(** [s] holds NULL as a word of its own: a word boundary on both sides. *)
Definition hasStandaloneNull (s : str) : Prop :=
  exists pre w post,
    s = pre ++ w ++ post /\ ToUpper w = lit "NULL" /\
    isWordBefore (cursorAfter None pre) = false /\ isWordAfter post = false.

(** ** The rendered text in closed form *)

(** [strings.ToLower(name[:1]) + name[1:]] for a name that is not empty. *)
Definition privateName (name : str) : str := ToLower (take 1 name) ++ drop 1 name.

Definition emptyName (field : FieldMeta) : bool := streq (FieldName field) "".

Definition entityFieldText (field : FieldMeta) : str :=
  TAB ++ padRight 30 (privateName (FieldName field)) ++ lit " " ++
  padRight 20 (entityFieldType (FieldType field)) ++ lit " // " ++ Comment field ++ NL.

Definition toEntityText (field : FieldMeta) : str :=
  TAB ++ TAB ++ lit "With" ++ Title (privateName (FieldName field)) ++ lit "(p." ++
  toEntityAccess field ++ lit ")." ++ NL.

Definition toPoText (field : FieldMeta) : str :=
  TAB ++ TAB ++ padRight 15 (FieldName field) ++ lit ": " ++
  toPoAccess field (privateName (FieldName field)) ++ lit "," ++ NL.

(** The PO half of the output, written whatever the entity name is. *)
Definition poSection (p : SQLParser) : str :=
  poHeader p ++ concat (map poFieldLine (Fields p)) ++ (lit "}" ++ NL ++ NL ++ NL).

(** The entity half up to, and without, the date-time helper. *)
Definition entitySection (p : SQLParser) : str :=
  entityHeader p ++ concat (map entityFieldText (Fields p)) ++ (lit "}" ++ NL ++ NL) ++
  validateStub p ++
  toEntityHeader p ++ concat (map toEntityText (Fields p)) ++
  (TAB ++ TAB ++ lit "Build()" ++ NL ++ lit "}" ++ NL ++ NL) ++
  toPoHeader p ++ concat (map toPoText (Fields p)) ++
  (TAB ++ lit "}, nil" ++ NL ++ lit "}" ++ NL ++ NL).

(** ** Inputs used as examples *)

Definition sql_orders : str := "CREATE TABLE shard.orders_{region} (...)".

Definition sql_f : str := "`f` INT NOT NULL COMMENT 'x'".

Definition sql_created : str :=
  "`fcreated_at` DATETIME DEFAULT NULL COMMENT 'created time'".

Definition sql_created_plain : str :=
  "`fcreated_at` DATETIME DEFAULT NULL COMMENT 'created time',".

(** The nullable wrapper types: the values of the nullable type table. *)
Definition nullableWrappers : list str :=
  map snd (map_to_list defaultNullableTypeMappings).

Definition isNullableWrapper (t : str) : bool := bool_decide (t ∈ nullableWrappers).

Definition sql_two_columns : str :=
  lit "`created_at` DATETIME NOT NULL COMMENT 'c'," ++ NL ++
  lit "`ratio` FLOAT DEFAULT NULL COMMENT 'r'".

Definition sql_user_name : str :=
  "`user_name` VARCHAR(64) NOT NULL COMMENT 'user name'".

Definition sql_enum : str := "`kind` ENUM NOT NULL COMMENT 'k'".

(** ** The nullability wording of the specification *)

(** The patterns the specification's wording describes: DEFAULT NULL, and
    NULL as a word of its own. *)
Definition defaultNullRe : Regexp :=
  MustCompile (LitFold "DEFAULT" · Plus cls_s · LitFold "NULL")%re 0.

Definition standaloneNullRe : Regexp :=
  MustCompile (WordBoundary · LitFold "NULL" · WordBoundary)%re 0.

Definition sql_xnull : str :=
  "`mode` VARCHAR(16) DEFAULT 'XNULL' COMMENT 'm'".

(** ** Naming: segments of a snake_case identifier *)

(** The segment with its first letter in upper case. *)
Definition capitalizeFirst (seg : str) : str :=
  match seg with
  | [] => []
  | c :: rest => toUpper c :: rest
  end.

(** The bytes of a lower-case snake_case identifier. *)
Definition snakeChar (c : ascii) : bool :=
  isLower c || isDigit c || bool_decide (c = "_"%char).

Definition wordChar (c : ascii) : bool := isLower c || isDigit c.

(** A segment that is not empty and begins with a lower-case letter. *)
Definition letterLed (seg : str) : Prop :=
  exists c rest, seg = c :: rest /\ isLower c = true.

(** * Definitions used by the further properties *)

(** ** Matches with their captures

    [MatchesC r prev w rest cs cs']: as [Matches], and the captures [cs]
    become [cs'] along the way: a group writes the text it matched. *)

Fixpoint MatchesC (r : regex) (prev : option ascii) (w rest : str)
    (cs cs' : list str) : Prop :=
  match r with
  | Eps => w = [] /\ cs' = cs
  | Class p => (exists c, w = [c] /\ p c = true) /\ cs' = cs
  | Cat r1 r2 =>
      exists w1 w2 cs1,
        w = w1 ++ w2 /\ MatchesC r1 prev w1 (w2 ++ rest) cs cs1 /\
        MatchesC r2 (cursorAfter prev w1) w2 rest cs1 cs'
  | Alt r1 r2 => MatchesC r1 prev w rest cs cs' \/ MatchesC r2 prev w rest cs cs'
  | Star p | StarLazy p => forallb p w = true /\ cs' = cs
  | Opt r1 => MatchesC r1 prev w rest cs cs' \/ (w = [] /\ cs' = cs)
  | Group n r1 => exists cs1, MatchesC r1 prev w rest cs cs1 /\ cs' = <[n := w]> cs1
  | WordBoundary =>
      (w = [] /\ xorb (isWordBefore prev) (isWordAfter rest) = true) /\ cs' = cs
  end.

(** A pattern without capturing groups. *)
Fixpoint groupFree (r : regex) : bool :=
  match r with
  | Eps | Class _ | Star _ | StarLazy _ | WordBoundary => true
  | Cat r1 r2 | Alt r1 r2 => groupFree r1 && groupFree r2
  | Opt r1 => groupFree r1
  | Group _ _ => false
  end.

(** ** The text of a column definition

    [fieldRe] up to the opening quote of the comment. *)
Definition fieldHead : regex :=
  (Chr "`" · Group 1 (Plus cls_w) · Chr "`" · Plus cls_s ·
   Group 2 (Plus cls_alpha · Star cls_d ·
            Opt (Group 3 (Chr "(" · Plus cls_d · Chr ")"))) ·
   Plus cls_s ·
   Group 4 (StarLazy cls_dot) · Plus cls_s · Lit "COMMENT" · Plus cls_s ·
   Chr "'")%re.

Definition isSpaces (ws : str) : Prop := ws <> [] /\ forallb cls_s ws = true.

(** [whole] is a column definition with the given name, type token,
    parenthesised size, other clause and comment. *)
Definition isColumnText (whole name ty g3 other comment : str) : Prop :=
  exists ws1 letters digits ws2 ws3 ws4,
    whole = lit "`" ++ name ++ lit "`" ++ ws1 ++ ty ++ ws2 ++ other ++ ws3 ++
            lit "COMMENT" ++ ws4 ++ lit "'" ++ comment ++ lit "'" /\
    (name <> [] /\ forallb cls_w name = true) /\
    (ty = letters ++ digits ++ g3 /\
     letters <> [] /\ forallb cls_alpha letters = true /\
     forallb cls_d digits = true /\
     (g3 = [] \/
      exists n, n <> [] /\ forallb cls_d n = true /\ g3 = lit "(" ++ n ++ lit ")")) /\
    (isSpaces ws1 /\ isSpaces ws2 /\ isSpaces ws3 /\ isSpaces ws4) /\
    forallb cls_dot other = true /\
    forallb cls_dot comment = true /\ "'"%char ∉ comment.

(** ** Further example inputs *)

Definition sql_three_columns : str :=
  lit "CREATE TABLE db.t_user (" ++ NL ++
  lit "  `user_name` VARCHAR(64) NOT NULL COMMENT 'user name'," ++ NL ++
  lit "  `fcreated_at` DATETIME DEFAULT NULL COMMENT 'created time'," ++ NL ++
  lit "  `ratio` float NULL COMMENT 'r'" ++ NL ++ lit ")".


(** ** The table pattern in pieces *)

Definition tableHead : regex :=
  (Lit "CREATE TABLE " · Plus cls_S · Chr ".")%re.

Definition tableSuffix : regex :=
  (Chr "_" · Chr "{" · Plus cls_alpha · Chr "}")%re.

(** ** Naming *)

(** The string without its underscores. *)
Definition withoutUnderscores (s : str) : str :=
  List.filter (fun c => negb (bool_decide (c = "_"%char))) s.


(** ** Emitter *)

(** The PO types that the two conversion functions treat specially. *)
Definition convertedTypes : list str :=
  [lit "sql.NullString"; lit "datetime.NullDateTime"; lit "datetime.DateTime";
   lit "sql.NullInt32"; lit "sql.NullInt64"; lit "sql.NullFloat64"].

(** The keywords of the type tables. *)
Definition typeKeywords : list str :=
  [lit "INT"; lit "SMALLINT"; lit "TINYINT"; lit "MEDIUMINT"; lit "BIGINT";
   lit "VARCHAR"; lit "CHAR"; lit "TEXT"; lit "JSON"; lit "DATETIME";
   lit "DOUBLE"; lit "FLOAT"].

(** A column name whose derived field name is empty. *)
Definition degenerateName (name : str) : Prop :=
  withoutUnderscores name = [] \/
  withoutUnderscores name = ["f"%char] \/ withoutUnderscores name = ["F"%char].

(** ** Matches laid out in the input *)

(** The text made of gaps and matched pieces in turn, then a tail. *)
Fixpoint interleave (gaps pieces : list str) (tail : str) : str :=
  match gaps, pieces with
  | g :: gaps', w :: pieces' => g ++ w ++ interleave gaps' pieces' tail
  | _, _ => tail
  end.

(** The whole text of a match: [m[0]]. *)
Definition wholeOf (m : list str) : str := default [] (m !! 0).

(** * Lemmas *)

(** ** The matcher keeps the shape of the submatch slice *)

Section MatcherInvariant.
Context {R : Type} (n : nat) (Q : R -> Prop).

Lemma star_greedy_inv p (k : option ascii -> str -> option R) prev s res :
  star_greedy p k prev s = Some res -> exists prev' s', k prev' s' = Some res.
Proof.
  revert prev. induction s as [|c s IH]; intros prev; simpl.
  - eauto.
  - destruct (p c); [|eauto].
    destruct (star_greedy p k (Some c) s) eqn:E; [|eauto].
    intros [= <-]. eauto.
Qed.

Lemma star_lazy_inv p (k : option ascii -> str -> option R) prev s res :
  star_lazy p k prev s = Some res -> exists prev' s', k prev' s' = Some res.
Proof.
  revert prev. induction s as [|c s IH]; intros prev; simpl.
  - destruct (k prev []) eqn:E; [|done]. intros [= <-]. eauto.
  - destruct (k prev (c :: s)) eqn:E.
    + intros [= <-]. eauto.
    + destruct (p c); [eauto|done].
Qed.

Lemma exec_inv r : forall (k : kont R) cs prev s res,
  kont_ok n Q k -> length cs = n -> exec r k cs prev s = Some res -> Q res.
Proof.
  induction r as [|p|r1 IH1 r2 IH2|r1 IH1 r2 IH2|p|p|r1 IH1|g r1 IH1|];
    intros k cs prev s res Hk Hcs; simpl.
  - eauto.
  - destruct s as [|c s]; [done|]. destruct (p c); [eauto|done].
  - apply IH1; [|done]. intros cs' prev' s' res' Hcs'. by apply IH2.
  - destruct (exec r1 k cs prev s) eqn:E.
    + intros [= <-]. eauto.
    + eauto.
  - intros H. apply star_greedy_inv in H as (prev' & s' & H). eauto.
  - intros H. apply star_lazy_inv in H as (prev' & s' & H). eauto.
  - destruct (exec r1 k cs prev s) eqn:E.
    + intros [= <-]. eauto.
    + eauto.
  - apply IH1; [|done]. intros cs' prev' s' res' Hcs'.
    apply Hk. by rewrite length_insert.
  - destruct (xorb _ _); [eauto|done].
Qed.
End MatcherInvariant.

Lemma matchAt_length re prev s m rest :
  matchAt re prev s = Some (m, rest) -> length m = S (numSubexp re).
Proof.
  unfold matchAt.
  apply (exec_inv (S (numSubexp re)) (fun res => length res.1 = S (numSubexp re))).
  - intros cs prev' s' res Hcs [= <-]. simpl. by rewrite length_insert.
  - apply length_replicate.
Qed.

Lemma search_length re prev s m rest :
  search re prev s = Some (m, rest) -> length m = S (numSubexp re).
Proof.
  revert prev. induction s as [|c s IH]; intros prev; simpl;
    destruct (matchAt re prev _) as [[m' rest']|] eqn:E.
  - intros [= <- <-]. eauto using matchAt_length.
  - done.
  - intros [= <- <-]. eauto using matchAt_length.
  - apply IH.
Qed.

Lemma findAll_length re skip abut prev s :
  Forall (fun m => length m = S (numSubexp re)) (findAll re skip abut prev s).
Proof.
  revert skip abut prev.
  induction s as [|c s IH]; intros skip abut prev; destruct skip as [|k];
    cbn [findAll]; try done.
  - destruct (matchAt re prev []) as [[m rest]|] eqn:E; [|done].
    destruct (_ && _); [done|]. constructor; [|done]. eauto using matchAt_length.
  - destruct (matchAt re prev (c :: s)) as [[m rest]|] eqn:E; [|apply IH].
    destruct (_ && _); [apply IH|]. constructor; [|apply IH].
    eauto using matchAt_length.
Qed.

Lemma FindStringSubmatch_length re s :
  FindStringSubmatch re s = [] \/ length (FindStringSubmatch re s) = S (numSubexp re).
Proof.
  unfold FindStringSubmatch.
  destruct (search re None s) as [[m rest]|] eqn:E; [|by left].
  right. eauto using search_length.
Qed.

Lemma FindAllStringSubmatch_length re s :
  Forall (fun m => length m = S (numSubexp re)) (FindAllStringSubmatch re s).
Proof. apply findAll_length. Qed.

(** ** What [Parse] computes *)

Lemma Split_nonempty s sep : exists h t, Split s sep = h :: t.
Proof.
  induction s as [|c s (h & t & IH)]; simpl; [eauto|].
  destruct (bool_decide (c = sep)); [eauto|]. rewrite IH. eauto.
Qed.

Lemma parseColumn_spec m p :
  length m = 6 ->
  parseColumn m p = (Val tt, appendField (columnOfMatch p m) p).
Proof.
  intros Hm.
  destruct m as [|whole [|name [|ty [|g3 [|other [|comment [|]]]]]]]; try done.
  unfold parseColumn, columnOfMatch, columnField, sqlTypeOf, isNullableOf, validateOf.
  destruct (Split_nonempty ty "(") as (h & t & Hsplit).
  cbn [length Nat.ltb Nat.leb lookup list_lookup index lift default from_option id].
  unfold bind, lift. cbv beta iota. rewrite !Hsplit.
  cbn [lookup list_lookup index default from_option id]. unfold gets, modify.
  destruct (negb (MatchString notNullRegex other)),
    (MatchString nullRegex other), (HasPrefix ty "VARCHAR"),
    (Contains other "加密"); reflexivity.
Qed.

Lemma columnOfMatch_appendField f p m :
  columnOfMatch (appendField f p) m = columnOfMatch p m.
Proof. reflexivity. Qed.

Lemma forEach_parseColumn ms : forall p,
  Forall (fun m => length m = 6) ms ->
  forEach ms parseColumn p =
    (Val tt, foldl (fun q m => appendField (columnOfMatch p m) q) p ms).
Proof.
  induction ms as [|m ms IH]; intros p Hms; [done|].
  apply Forall_cons in Hms as [Hm Hms].
  cbn [forEach]. unfold bind at 1. rewrite parseColumn_spec by done.
  rewrite IH by done. cbn [foldl]. reflexivity.
Qed.

Lemma foldl_appendField (g : list str -> FieldMeta) ms : forall q,
  foldl (fun q m => appendField (g m) q) q ms =
    {| TableName := TableName q; StructName := StructName q;
       SecondStructName := SecondStructName q;
       Fields := Fields q ++ map g ms;
       TypeMappings := TypeMappings q;
       NullableTypeMappings := NullableTypeMappings q |}.
Proof.
  induction ms as [|m ms IH]; intros q; cbn [foldl map].
  - rewrite app_nil_r. by destruct q.
  - rewrite IH. cbn. by rewrite <- app_assoc.
Qed.

Lemma Parse_spec sqlContent p :
  Parse sqlContent p =
    (Val None,
     let q := afterTableName sqlContent p in
     {| TableName := TableName q; StructName := StructName q;
        SecondStructName := SecondStructName q;
        Fields := Fields p ++
                  map (columnOfMatch p) (FindAllStringSubmatch fieldRe sqlContent);
        TypeMappings := TypeMappings p;
        NullableTypeMappings := NullableTypeMappings p |}).
Proof.
  unfold Parse, afterTableName.
  pose proof (FindAllStringSubmatch_length fieldRe sqlContent) as Hms.
  destruct (FindStringSubmatch_length tableNameRe sqlContent) as [E|E].
  - rewrite E. cbn [length Nat.ltb Nat.leb]. unfold bind, ret.
    rewrite forEach_parseColumn by done. rewrite foldl_appendField. done.
  - destruct (FindStringSubmatch tableNameRe sqlContent) as [|whole [|name [|]]];
      try done.
    cbn [length Nat.ltb Nat.leb lookup list_lookup index lift default].
    unfold bind, ret, modify, gets, lift. cbv beta iota.
    cbn [StructName TableName setTableName].
    destruct (streq (StructName p) ""); cbv beta iota;
      rewrite forEach_parseColumn by done; rewrite foldl_appendField; done.
Qed.

Lemma cursorAfter_app prev w1 w2 :
  cursorAfter prev (w1 ++ w2) = cursorAfter (cursorAfter prev w1) w2.
Proof. revert prev. induction w1 as [|c w1 IH]; intros prev; simpl; eauto. Qed.

Section MatcherComplete.
Context {R : Type}.

Lemma star_greedy_is_Some p (k : option ascii -> str -> option R) s : forall prev,
  is_Some (star_greedy p k prev s) <->
  exists w rest, s = w ++ rest /\ forallb p w = true /\
                 is_Some (k (cursorAfter prev w) rest).
Proof.
  induction s as [|c s IH]; intros prev; simpl.
  - split.
    + intros H. by exists [], [].
    + intros (w & rest & Hs & _ & H). symmetry in Hs.
      apply app_eq_nil in Hs as [-> ->]. done.
  - destruct (p c) eqn:Hc.
    + split.
      * destruct (star_greedy p k (Some c) s) eqn:E.
        -- intros _. destruct (proj1 (IH (Some c))) as (w & rest & -> & Hw & H);
             [by rewrite E|].
           exists (c :: w), rest. simpl. by rewrite Hc.
        -- intros H. by exists [], (c :: s).
      * intros (w & rest & Hs & Hw & H). destruct w as [|c' w].
        -- simpl in *. subst rest.
           destruct (star_greedy p k (Some c) s); [done|]. done.
        -- simpl in *. injection Hs as <- ->.
           apply andb_true_iff in Hw as [_ Hw].
           destruct (proj2 (IH (Some c))) as [x ->]; [|done]. eauto.
    + split.
      * intros H. by exists [], (c :: s).
      * intros (w & rest & Hs & Hw & H). destruct w as [|c' w].
        -- simpl in *. by subst rest.
        -- simpl in *. injection Hs as <- ->. by rewrite Hc in Hw.
Qed.

Lemma star_lazy_is_Some p (k : option ascii -> str -> option R) s : forall prev,
  is_Some (star_lazy p k prev s) <->
  exists w rest, s = w ++ rest /\ forallb p w = true /\
                 is_Some (k (cursorAfter prev w) rest).
Proof.
  induction s as [|c s IH]; intros prev; simpl.
  - split.
    + destruct (k prev []) eqn:E; [|by intros [? ?]].
      intros _. exists [], []. simpl. by rewrite E.
    + intros (w & rest & Hs & _ & H). symmetry in Hs.
      apply app_eq_nil in Hs as [-> ->]. simpl in H.
      destruct (k prev []); [done|by destruct H].
  - destruct (k prev (c :: s)) eqn:E.
    + split; [|done]. intros _. exists [], (c :: s). simpl. by rewrite E.
    + split.
      * destruct (p c) eqn:Hc; [|by intros [? ?]].
        intros H. apply IH in H as (w & rest & -> & Hw & H).
        exists (c :: w), rest. simpl. by rewrite Hc.
      * intros (w & rest & Hs & Hw & H). destruct w as [|c' w].
        -- simpl in *. subst rest. rewrite E in H. by destruct H.
        -- simpl in *. injection Hs as <- ->.
           apply andb_true_iff in Hw as [-> Hw]. apply IH. eauto.
Qed.

Lemma exec_is_Some r : forall (k : kont R) cs prev s,
  kont_uniform k ->
  is_Some (exec r k cs prev s) <->
  exists w rest, s = w ++ rest /\ Matches r prev w rest /\
                 is_Some (k cs (cursorAfter prev w) rest).
Proof.
  induction r as [|p|r1 IH1 r2 IH2|r1 IH1 r2 IH2|p|p|r1 IH1|g r1 IH1|];
    intros k cs prev s Hk; simpl.
  - split.
    + intros H. by exists [], s.
    + by intros (w & rest & -> & -> & H).
  - split.
    + destruct s as [|c s]; [by intros [? ?]|].
      destruct (p c) eqn:Hc; [|by intros [? ?]].
      intros H. exists [c], s. eauto.
    + intros (w & rest & -> & (c & -> & Hc) & H). simpl. by rewrite Hc.
  - assert (Hk2 : kont_uniform (fun cs' prev' s' => exec r2 k cs' prev' s')).
    { intros cs1 cs2 prev' s' H. apply IH2 in H as (w & rest & -> & Hw & H); [|done].
      apply IH2; [done|]. exists w, rest. eauto. }
    rewrite IH1 by done. split.
    + intros (w1 & rest1 & -> & H1 & H).
      apply IH2 in H as (w2 & rest & -> & H2 & H); [|done].
      exists (w1 ++ w2), rest. rewrite <- app_assoc, cursorAfter_app.
      split; [done|]. split; [|done]. by exists w1, w2.
    + intros (w & rest & -> & (w1 & w2 & -> & H1 & H2) & H).
      exists w1, (w2 ++ rest). rewrite <- app_assoc. split; [done|].
      split; [done|]. apply IH2; [done|]. exists w2, rest.
      by rewrite <- cursorAfter_app.
  - split.
    + destruct (exec r1 k cs prev s) eqn:E.
      * intros _. destruct (proj1 (IH1 k cs prev s Hk)) as (w & rest & ? & ? & ?);
          [by rewrite E|]. exists w, rest. eauto.
      * intros H. apply IH2 in H as (w & rest & ? & ? & ?); [|done].
        exists w, rest. eauto.
    + intros (w & rest & Hs & [H1|H2] & H).
      * destruct (proj2 (IH1 k cs prev s Hk)) as [x ->]; [|done].
        exists w, rest. eauto.
      * destruct (exec r1 k cs prev s); [done|].
        apply IH2; [done|]. exists w, rest. eauto.
  - apply star_greedy_is_Some.
  - apply star_lazy_is_Some.
  - split.
    + destruct (exec r1 k cs prev s) eqn:E.
      * intros _. destruct (proj1 (IH1 k cs prev s Hk)) as (w & rest & ? & ? & ?);
          [by rewrite E|]. exists w, rest. eauto.
      * intros H. exists [], s. eauto.
    + intros (w & rest & Hs & [H1| ->] & H).
      * destruct (proj2 (IH1 k cs prev s Hk)) as [x ->]; [|done].
        exists w, rest. eauto.
      * simpl in *. subst rest. by destruct (exec r1 k cs prev s).
  - rewrite IH1.
    + split; intros (w & rest & -> & Hw & H); exists w, rest;
        (split; [done|]); (split; [done|]); eapply Hk, H.
    + intros cs1 cs2 prev' s' H. eapply Hk, H.
  - destruct (xorb (isWordBefore prev) (isWordAfter s)) eqn:E.
    + split.
      * intros H. by exists [], s.
      * by intros (w & rest & -> & [-> _] & H).
    + split; [by intros [? ?]|].
      intros (w & rest & -> & [-> Hx] & H). simpl in E. congruence.
Qed.
End MatcherComplete.

Lemma matchAt_is_Some re prev s :
  is_Some (matchAt re prev s) <->
  exists w rest, s = w ++ rest /\ Matches (pattern re) prev w rest.
Proof.
  unfold matchAt. rewrite exec_is_Some.
  - split.
    + intros (w & rest & ? & ? & ?). exists w, rest. eauto.
    + intros (w & rest & ? & ?). exists w, rest. eauto.
  - intros cs cs' prev' s' _. eauto.
Qed.

Lemma search_is_Some re s : forall prev,
  is_Some (search re prev s) <->
  exists pre w rest, s = pre ++ w ++ rest /\
                     Matches (pattern re) (cursorAfter prev pre) w rest.
Proof.
  induction s as [|c s IH]; intros prev; simpl.
  - destruct (matchAt re prev []) eqn:E.
    + split; [|done]. intros _.
      destruct (proj1 (matchAt_is_Some re prev [])) as (w & rest & ? & ?);
        [by rewrite E|]. by exists [], w, rest.
    + split; [by intros [? ?]|]. intros (pre & w & rest & Hs & H).
      symmetry in Hs. apply app_eq_nil in Hs as [-> Hs].
      destruct (proj2 (matchAt_is_Some re prev [])) as [x Hx]; [|congruence].
      exists w, rest. eauto.
  - destruct (matchAt re prev (c :: s)) eqn:E.
    + split; [|done]. intros _.
      destruct (proj1 (matchAt_is_Some re prev (c :: s))) as (w & rest & ? & ?);
        [by rewrite E|]. by exists [], w, rest.
    + rewrite IH. split.
      * intros (pre & w & rest & -> & H). by exists (c :: pre), w, rest.
      * intros (pre & w & rest & Hs & H). destruct pre as [|c' pre].
        -- destruct (proj2 (matchAt_is_Some re prev (c :: s))) as [x Hx];
             [|congruence]. exists w, rest. eauto.
        -- injection Hs as <- ->. by exists pre, w, rest.
Qed.

Lemma MatchString_true re s :
  MatchString re s = true <->
  exists pre w rest, s = pre ++ w ++ rest /\
                     Matches (pattern re) (cursorAfter None pre) w rest.
Proof.
  rewrite <- search_is_Some. unfold MatchString.
  destruct (search re None s); split; first [done | by intros [? ?]].
Qed.

Lemma takeWhile_dropWhile p s : takeWhile p s ++ dropWhile p s = s.
Proof. induction s as [|c s IH]; simpl; [done|]. destruct (p c); simpl; congruence. Qed.

Lemma take_takeWhile p s :
  take (length s - length (dropWhile p s)) s = takeWhile p s.
Proof.
  rewrite <- (takeWhile_dropWhile p s) at 1 3.
  rewrite length_app, Nat.add_sub. by rewrite take_app_length.
Qed.

Lemma star_greedy_total {R} p (k : option ascii -> str -> option R) s : forall prev,
  (forall prev' s', is_Some (k prev' s')) ->
  star_greedy p k prev s = k (cursorAfter prev (takeWhile p s)) (dropWhile p s).
Proof.
  induction s as [|c s IH]; intros prev Hk; simpl; [done|].
  destruct (p c); [|done]. rewrite IH by done. simpl.
  by destruct (Hk (cursorAfter (Some c) (takeWhile p s)) (dropWhile p s)) as [x ->].
Qed.

Lemma matchAt_digitsRe prev s :
  matchAt digitsRe prev s =
    match s with
    | c :: s' =>
        if isDigit c then Some ([takeWhile isDigit s], dropWhile isDigit s') else None
    | [] => None
    end.
Proof.
  unfold matchAt. simpl. destruct s as [|c s]; [done|].
  unfold cls_d. destruct (isDigit c) eqn:Hc; [|done].
  rewrite star_greedy_total by eauto.
  pose proof (take_takeWhile isDigit (c :: s)) as H. cbn [dropWhile] in H.
  rewrite Hc in H. by rewrite H.
Qed.

Lemma FindString_digitsRe s : FindString digitsRe s = firstDigitRun s.
Proof.
  unfold FindString, firstDigitRun.
  generalize (None : option ascii).
  induction s as [|c s IH]; intros prev; cbn [search].
  - by rewrite matchAt_digitsRe.
  - rewrite matchAt_digitsRe. simpl. destruct (isDigit c) eqn:Hc; simpl.
    + by rewrite Hc.
    + apply IH.
Qed.

(** ** The nullability patterns, read as statements about text *)

Lemma Matches_Plus p prev w rest :
  Matches (Plus p) prev w rest <-> w <> [] /\ forallb p w = true.
Proof.
  simpl. split.
  - intros (w1 & w2 & -> & (c & -> & Hc) & H). simpl. by rewrite Hc.
  - intros [Hne H]. destruct w as [|c w]; [done|]. simpl in H.
    apply andb_true_iff in H as [Hc H]. exists [c], w. eauto.
Qed.

Lemma Matches_LitFold t : forall prev w rest,
  Matches (LitFold t) prev w rest <-> ToUpper w = ToUpper t.
Proof.
  induction t as [|c t IH]; intros prev w rest; simpl.
  - split; [by intros ->|]. by destruct w.
  - split.
    + intros (w1 & w2 & -> & (x & -> & Hx) & H). apply IH in H.
      apply bool_decide_eq_true in Hx. simpl. by rewrite Hx, H.
    + destruct w as [|x w]; [done|]. simpl. intros [= Hx H].
      exists [x], w. split; [done|]. split.
      * exists x. split; [done|]. by apply bool_decide_eq_true.
      * by apply IH.
Qed.

Lemma Matches_Lit t : forall prev w rest, Matches (Lit t) prev w rest <-> w = t.
Proof.
  induction t as [|c t IH]; intros prev w rest; simpl.
  - done.
  - split.
    + intros (w1 & w2 & -> & (x & -> & Hx) & H). apply IH in H.
      apply bool_decide_eq_true in Hx. simpl. congruence.
    + intros ->. exists [c], t. split; [done|]. split.
      * exists c. split; [done|]. by apply bool_decide_eq_true.
      * by apply IH.
Qed.

Lemma toUpper_word c x : toUpper x = c -> isUpper c = true -> cls_w x = true.
Proof.
  intros <-. destruct x as [[] [] [] [] [] [] [] []]; vm_compute; congruence.
Qed.

Lemma ToUpper_head_word w c t :
  ToUpper w = c :: t -> isUpper c = true -> forall rest, isWordAfter (w ++ rest) = true.
Proof.
  destruct w as [|x w]; [done|]. simpl. intros [= Hx _] Hc rest.
  eauto using toUpper_word.
Qed.

Lemma ToUpper_last_word w t c prev :
  ToUpper w = t ++ [c] -> isUpper c = true ->
  isWordBefore (cursorAfter prev w) = true.
Proof.
  revert prev t. induction w as [|x w IH]; intros prev t H Hc.
  - by destruct t.
  - simpl in *. destruct w as [|y w].
    + destruct t as [|? [|]]; try done. simpl in H. injection H as H.
      simpl. eauto using toUpper_word.
    + destruct t as [|? t]; [done|]. injection H as _ H. eauto.
Qed.

Lemma xorb_true_r_false a : xorb a true = true <-> a = false.
Proof. by destruct a. Qed.

Lemma xorb_true_l_false b : xorb true b = true <-> b = false.
Proof. by destruct b. Qed.

Lemma MatchString_notNullRegex s :
  MatchString notNullRegex s = true <-> hasNotNullToken s.
Proof.
  rewrite MatchString_true. unfold notNullRegex, hasNotNullToken.
  cbn [pattern Matches]. split.
  - intros (pre & w & post & -> & wa & wb & -> & Ha & -> & Hb).
    destruct Ha as (wc & w2 & -> & Hc & H2).
    destruct Hc as (wd & ws & -> & Hd & Hs).
    destruct Hd as (we & w1 & -> & [-> He] & H1).
    apply Matches_LitFold in H1, H2. apply Matches_Plus in Hs as [Hne Hs].
    cbn [app cursorAfter] in *. rewrite ?app_nil_r in *.
    exists pre, w1, ws, w2, post. rewrite <- ?app_assoc in *.
    rewrite (ToUpper_head_word w1 "N" "OT") in He by done.
    apply xorb_true_r_false in He.
    rewrite !cursorAfter_app in Hb.
    rewrite (ToUpper_last_word w2 "NUL" "L") in Hb by done.
    apply xorb_true_l_false in Hb. done.
  - intros (pre & w1 & ws & w2 & post & -> & H1 & Hne & Hs & H2 & Hb & Ha).
    exists pre, (w1 ++ ws ++ w2), post. rewrite <- ?app_assoc. split; [done|].
    exists (w1 ++ ws ++ w2), []. rewrite app_nil_r. split; [done|]. split.
    + exists (w1 ++ ws), w2. rewrite <- ?app_assoc. split; [done|]. split.
      * exists w1, ws. split; [done|]. split.
        -- exists [], w1. split; [done|]. split.
           ++ split; [done|]. rewrite <- ?app_assoc.
              rewrite (ToUpper_head_word w1 "N" "OT") by done.
              by apply xorb_true_r_false.
           ++ by apply Matches_LitFold.
        -- by apply Matches_Plus.
      * by apply Matches_LitFold.
    + split; [done|]. rewrite !cursorAfter_app.
      rewrite (ToUpper_last_word w2 "NUL" "L") by done.
      by apply xorb_true_l_false.
Qed.

Lemma MatchString_nullRegex s :
  MatchString nullRegex s = true <-> hasDefaultNull s \/ hasNullBeforeBoundary s.
Proof.
  rewrite MatchString_true. unfold nullRegex, hasDefaultNull, hasNullBeforeBoundary.
  cbn [pattern Matches]. split.
  - intros (pre & w & post & -> & [Ha|Hb]).
    + left. destruct Ha as (wa & w2 & -> & (w1 & ws & -> & H1 & Hs) & H2).
      apply Matches_LitFold in H1, H2. apply Matches_Plus in Hs as [Hne Hs].
      exists pre, w1, ws, w2, post. by rewrite <- ?app_assoc.
    + right. destruct Hb as (w1 & wb & -> & H1 & -> & Hb).
      apply Matches_LitFold in H1. rewrite app_nil_r in *.
      exists pre, w1, post. split; [done|]. split; [done|].
      rewrite (ToUpper_last_word w1 "NUL" "L") in Hb by done.
      by apply xorb_true_l_false in Hb.
  - intros [(pre & w1 & ws & w2 & post & -> & H1 & Hne & Hs & H2)
           |(pre & w & post & -> & H1 & Ha)].
    + exists pre, (w1 ++ ws ++ w2), post. rewrite <- ?app_assoc. split; [done|].
      left. exists (w1 ++ ws), w2. rewrite <- ?app_assoc. split; [done|]. split.
      * exists w1, ws. split; [done|]. split.
        -- by apply Matches_LitFold.
        -- by apply Matches_Plus.
      * by apply Matches_LitFold.
    + exists pre, w, post. split; [done|]. right.
      exists w, []. rewrite app_nil_r. split; [done|]. split.
      * by apply Matches_LitFold.
      * split; [done|]. rewrite (ToUpper_last_word w "NUL" "L") by done.
        by apply xorb_true_l_false.
Qed.

Lemma privateFieldOf_spec field :
  privateFieldOf field =
    if emptyName field then Panicked (SliceOutOfRange 1 0)
    else Val (privateName (FieldName field)).
Proof.
  unfold privateFieldOf, emptyName, privateName, sliceTo, sliceFrom, streq.
  destruct (FieldName field) as [|c name]; case_bool_decide; done.
Qed.

Lemma entityFieldLine_spec field :
  entityFieldLine field =
    if emptyName field then Panicked (SliceOutOfRange 1 0)
    else Val (entityFieldText field).
Proof.
  unfold entityFieldLine, entityFieldText. rewrite privateFieldOf_spec.
  destruct (emptyName field); cbn [rbind]; [done|]. by rewrite <- !app_assoc.
Qed.

Lemma toEntityLine_spec field :
  toEntityLine field =
    if emptyName field then Panicked (SliceOutOfRange 1 0)
    else Val (toEntityText field).
Proof.
  unfold toEntityLine, toEntityText. rewrite privateFieldOf_spec.
  by destruct (emptyName field).
Qed.

Lemma toPoLine_spec field :
  toPoLine field =
    if emptyName field then Panicked (SliceOutOfRange 1 0)
    else Val (toPoText field).
Proof.
  unfold toPoLine, toPoText. rewrite privateFieldOf_spec.
  by destruct (emptyName field).
Qed.

Lemma writeEach_spec (line : FieldMeta -> result str) (text : FieldMeta -> str) e fields :
  (forall f, line f = if emptyName f then Panicked e else Val (text f)) ->
  forall builder,
    writeEach builder fields line =
      if existsb emptyName fields then Panicked e
      else Val (builder ++ concat (map text fields)).
Proof.
  intros Hline. induction fields as [|f fields IH]; intros builder; simpl.
  - by rewrite app_nil_r.
  - rewrite Hline. destruct (emptyName f); simpl; [done|].
    rewrite IH. destruct (existsb emptyName fields); [done|].
    by rewrite <- app_assoc.
Qed.

Lemma writeEach_total (text : FieldMeta -> str) fields : forall builder,
  writeEach builder fields (fun f => Val (text f)) =
    Val (builder ++ concat (map text fields)).
Proof.
  induction fields as [|f fields IH]; intros builder; simpl.
  - by rewrite app_nil_r.
  - rewrite IH. by rewrite <- app_assoc.
Qed.

Lemma renderStruct_spec p :
  renderStruct p =
    if streq (SecondStructName p) "" then Val (poSection p)
    else if existsb emptyName (Fields p) then Panicked (SliceOutOfRange 1 0)
    else Val (poSection p ++ entitySection p ++
              if needTimeFunc (Fields p) then timeFuncText else []).
Proof.
  unfold renderStruct, poSection, entitySection.
  rewrite writeEach_total. cbn [rbind].
  destruct (streq (SecondStructName p) ""); cbn [negb]; [by rewrite <- !app_assoc|].
  rewrite (writeEach_spec _ _ _ _ entityFieldLine_spec).
  destruct (existsb emptyName (Fields p)) eqn:Hnames; [done|]. cbn [rbind].
  rewrite (writeEach_spec _ _ _ _ toEntityLine_spec), Hnames. cbn [rbind].
  rewrite (writeEach_spec _ _ _ _ toPoLine_spec), Hnames. cbn [rbind].
  destruct (needTimeFunc (Fields p)); f_equal; rewrite <- ?app_assoc;
    rewrite ?app_nil_r; reflexivity.
Qed.

Lemma Val_inj {A} (a b : A) : Val a = Val b -> a = b.
Proof. by intros [= ->]. Qed.

Lemma streq_true a b : streq a b = true <-> a = b.
Proof. apply bool_decide_eq_true. Qed.

Lemma streq_false a b : streq a b = false <-> a <> b.
Proof. apply bool_decide_eq_false. Qed.

Lemma needTimeFunc_true fields :
  needTimeFunc fields = true <->
  exists f, f ∈ fields /\ FieldType f = lit "datetime.NullDateTime".
Proof.
  unfold needTimeFunc. rewrite existsb_exists. split.
  - intros (f & Hf & Ht). exists f. split; [by apply list_elem_of_In|].
    by apply streq_true.
  - intros (f & Hf & Ht). exists f. split; [by apply list_elem_of_In|].
    by apply streq_true.
Qed.

Lemma existsb_emptyName_false fields :
  existsb emptyName fields = false <-> forall f, f ∈ fields -> FieldName f <> [].
Proof.
  induction fields as [|f fields IH]; simpl.
  - split; [|done]. intros _ f Hf. by apply elem_of_nil in Hf.
  - rewrite orb_false_iff, IH. unfold emptyName at 1. rewrite streq_false.
    split.
    + intros [Hf H] g Hg. apply elem_of_cons in Hg as [->|Hg]; eauto.
    + intros H. split; [apply H; left|]. intros g Hg. apply H. by right.
Qed.

Lemma poSection_last p : last (poSection p) = Some (chr 10).
Proof.
  unfold poSection. rewrite !app_assoc. exact (last_snoc (chr 10) _).
Qed.

Lemma entitySection_last p : last (entitySection p) = Some (chr 10).
Proof.
  unfold entitySection. rewrite !app_assoc. exact (last_snoc (chr 10) _).
Qed.

Lemma timeFuncText_not_suffix out :
  last out = Some (chr 10) -> ~ timeFuncText `suffix_of` out.
Proof.
  intros Hlast [k ->]. unfold timeFuncText in Hlast.
  rewrite !app_assoc in Hlast. change (lit "}") with ["}"%char] in Hlast.
  rewrite last_snoc in Hlast. discriminate.
Qed.

Lemma writeEach_lines (line : FieldMeta -> result str) (text : FieldMeta -> str) fields :
  (forall f, f ∈ fields -> line f = Val (text f)) ->
  Forall2 (fun f l => line f = Val l) fields (map text fields).
Proof.
  induction fields as [|f fields IH]; intros H; simpl; constructor.
  - apply H. left.
  - apply IH. intros g Hg. apply H. by right.
Qed.

Lemma app_regroup (ps eh el cb vs teh tl bd tph pl en tf : str) :
  ps ++ (eh ++ el ++ cb ++ vs ++ teh ++ tl ++ bd ++ tph ++ pl ++ en) ++ tf =
  (ps ++ eh ++ el ++ cb ++ vs) ++ teh ++ tl ++ bd ++ tph ++ pl ++ en ++ tf.
Proof. by rewrite <- !app_assoc. Qed.

(** ** One descriptor per column match *)

Lemma Parse_column sqlContent p i m :
  FindAllStringSubmatch fieldRe sqlContent !! i = Some m ->
  exists whole name ty g3 other comment,
    m = [whole; name; ty; g3; other; comment] /\
    Fields (snd (Parse sqlContent p)) !! (length (Fields p) + i) =
      Some (columnField p name ty other comment).
Proof.
  intros Hm. rewrite Parse_spec. cbn [snd Fields].
  pose proof (FindAllStringSubmatch_length fieldRe sqlContent) as Hlen.
  rewrite Forall_lookup in Hlen. pose proof (Hlen i m Hm) as Hl.
  destruct m as [|whole [|name [|ty [|g3 [|other [|comment [|]]]]]]]; try done.
  exists whole, name, ty, g3, other, comment. split; [done|].
  rewrite lookup_app_r by lia.
  replace (length (Fields p) + i - length (Fields p)) with i by lia.
  rewrite list_lookup_fmap, Hm. reflexivity.
Qed.

Lemma HasPrefix_true s prefix :
  HasPrefix s prefix = true <-> exists rest, s = prefix ++ rest.
Proof.
  revert s. induction prefix as [|a prefix IH]; intros s; simpl.
  - split; [by exists s|done].
  - destruct s as [|b s].
    + split; [done|]. by intros [? ?].
    + rewrite andb_true_iff, bool_decide_eq_true, IH. split.
      * intros [-> [rest ->]]. eauto.
      * intros [rest [= -> ->]]. eauto.
Qed.

Lemma Contains_true s substr :
  Contains s substr = true <-> exists pre post, s = pre ++ substr ++ post.
Proof.
  induction s as [|c s IH]; simpl; rewrite orb_true_iff, HasPrefix_true.
  - split.
    + intros [[rest H]|?]; [|done]. by exists [], rest.
    + intros (pre & post & H). left. symmetry in H.
      apply app_eq_nil in H as [-> H]. eauto.
  - rewrite IH. split.
    + intros [[rest H]|(pre & post & ->)].
      * by exists [], rest.
      * by exists (c :: pre), post.
    + intros (pre & post & H). destruct pre as [|c' pre].
      * left. eauto.
      * right. injection H as -> ->. eauto.
Qed.

Lemma existsb_emptyName_true fields :
  existsb emptyName fields = true ->
  exists g, g ∈ fields /\ FieldName g = [].
Proof.
  rewrite existsb_exists. intros (g & Hg & He). exists g.
  split; [by apply list_elem_of_In|]. by apply streq_true in He.
Qed.

Lemma concat_map_lookup {A} (g : A -> str) (l : list A) i x :
  l !! i = Some x -> exists a b, concat (map g l) = a ++ g x ++ b.
Proof.
  intros H. rewrite <- (take_drop_middle l i x H).
  rewrite map_app, concat_app. cbn [map concat]. eauto.
Qed.

Lemma app_middle_l (h a l b t : str) :
  h ++ (a ++ l ++ b) ++ t = (h ++ a) ++ l ++ (b ++ t).
Proof. by rewrite <- !app_assoc. Qed.

Lemma app_middle_r (x l a r : str) : (x ++ l ++ a) ++ r = x ++ l ++ (a ++ r).
Proof. by rewrite <- !app_assoc. Qed.

Lemma renderStruct_contains_poFieldLine p i f out :
  Fields p !! i = Some f -> renderStruct p = Val out ->
  exists before after, out = before ++ poFieldLine f ++ after.
Proof.
  intros Hf Hout. rewrite renderStruct_spec in Hout.
  destruct (concat_map_lookup poFieldLine _ _ _ Hf) as (a & b & Hab).
  assert (Hpo : exists after, poSection p = (poHeader p ++ a) ++ poFieldLine f ++ after).
  { unfold poSection. rewrite Hab. eexists. apply app_middle_l. }
  destruct Hpo as [after Hpo].
  destruct (streq (SecondStructName p) "").
  - apply Val_inj in Hout as <-. eauto.
  - destruct (existsb emptyName (Fields p)); [done|]. apply Val_inj in Hout as <-.
    rewrite Hpo. eexists _, _. apply app_middle_r.
Qed.

Lemma app_chain8 (x1 x2 x3 x4 x5 x6 x7 x8 t : str) :
  (x1 ++ x2 ++ x3 ++ x4 ++ x5 ++ x6 ++ x7 ++ x8) ++ t =
  x1 ++ x2 ++ x3 ++ x4 ++ x5 ++ x6 ++ x7 ++ x8 ++ t.
Proof. by rewrite <- !app_assoc. Qed.

Lemma app_assoc4 (l s u n : str) : ((l ++ s) ++ u) ++ n = l ++ s ++ u ++ n.
Proof. by rewrite <- !app_assoc. Qed.

Lemma poFieldLine_empty_type f :
  FieldType f = [] ->
  exists tail,
    poFieldLine f =
      TAB ++ padRight 30 (FieldName f) ++ lit " " ++ replicate 20 " "%char ++
      lit " `db:" ++ DQ ++ OriginalField f ++ DQ ++ tail.
Proof.
  intros Ht. unfold poFieldLine. rewrite Ht.
  change (padRight 20 []) with (replicate 20 " "%char).
  destruct (negb (streq (Validate f) "")).
  - exists ((lit " " ++ Validate f) ++ (lit "`" ++ lit " // " ++ Comment f) ++ NL).
    rewrite <- app_chain8. apply app_assoc4.
  - exists ((lit "`" ++ lit " // " ++ Comment f) ++ NL).
    rewrite <- app_chain8. symmetry. apply app_assoc.
Qed.

Lemma MatchString_defaultNullRe s :
  MatchString defaultNullRe s = true <-> hasDefaultNull s.
Proof.
  rewrite MatchString_true. unfold defaultNullRe, hasDefaultNull.
  cbn [pattern Matches]. split.
  - intros (pre & w & post & -> & wa & w2 & -> & (w1 & ws & -> & H1 & Hs) & H2).
    apply Matches_LitFold in H1, H2. apply Matches_Plus in Hs as [Hne Hs].
    exists pre, w1, ws, w2, post. by rewrite <- !app_assoc.
  - intros (pre & w1 & ws & w2 & post & -> & H1 & Hne & Hs & H2).
    exists pre, (w1 ++ ws ++ w2), post. rewrite <- ?app_assoc. split; [done|].
    exists (w1 ++ ws), w2. rewrite <- ?app_assoc. split; [done|]. split.
    + exists w1, ws. split; [done|]. split.
      * by apply Matches_LitFold.
      * by apply Matches_Plus.
    + by apply Matches_LitFold.
Qed.

Lemma MatchString_standaloneNullRe s :
  MatchString standaloneNullRe s = true <-> hasStandaloneNull s.
Proof.
  rewrite MatchString_true. unfold standaloneNullRe, hasStandaloneNull.
  cbn [pattern Matches]. split.
  - intros (pre & w & post & -> & wa & wb & -> & Ha & -> & Hb).
    destruct Ha as (we & w1 & -> & [-> He] & H1).
    apply Matches_LitFold in H1.
    cbn [app cursorAfter] in *. rewrite ?app_nil_r in *.
    exists pre, w1, post. split; [done|]. split; [done|].
    rewrite (ToUpper_head_word w1 "N" "ULL") in He by done.
    apply xorb_true_r_false in He.
    rewrite (ToUpper_last_word w1 "NUL" "L") in Hb by done.
    by apply xorb_true_l_false in Hb.
  - intros (pre & w & post & -> & H1 & Hb & Ha).
    exists pre, w, post. split; [done|].
    exists w, []. rewrite app_nil_r. split; [done|]. split.
    + exists [], w. split; [done|]. split.
      * split; [done|]. rewrite (ToUpper_head_word w "N" "ULL") by done.
        by apply xorb_true_r_false.
      * by apply Matches_LitFold.
    + split; [done|]. rewrite (ToUpper_last_word w "NUL" "L") by done.
      by apply xorb_true_l_false.
Qed.

Lemma isNullableOf_true other :
  isNullableOf other = true <->
  ~ hasNotNullToken other /\ (hasDefaultNull other \/ hasNullBeforeBoundary other).
Proof.
  unfold isNullableOf.
  rewrite <- MatchString_notNullRegex, <- MatchString_nullRegex.
  destruct (MatchString notNullRegex other), (MatchString nullRegex other);
    cbn [negb]; split; try done; intros [H1 H2]; done.
Qed.

Lemma Join_cons_cons p q ps sep :
  Join (p :: q :: ps) sep = p ++ sep ++ Join (q :: ps) sep.
Proof. reflexivity. Qed.

Lemma Join_cons p ps sep :
  Join (p :: ps) sep = p ++ concat (map (fun q => sep ++ q) ps).
Proof.
  revert p. induction ps as [|q ps IH]; intros p.
  - cbn [Join map concat]. by rewrite app_nil_r.
  - rewrite Join_cons_cons, IH. cbn [map concat]. by rewrite <- app_assoc.
Qed.

Lemma Join_empty_sep ps : Join ps [] = concat ps.
Proof.
  destruct ps as [|p ps]; [done|]. rewrite Join_cons. cbn [concat]. f_equal.
  induction ps as [|q ps IH]; [done|]. simpl in *. by rewrite IH.
Qed.

Lemma Join_Split s sep : Join (Split s sep) [sep] = s.
Proof.
  induction s as [|c s IH]; [done|]. cbn [Split].
  destruct (Split_nonempty s sep) as (h & t & Hs). rewrite Hs in *.
  case_bool_decide as Hc.
  - subst c. rewrite Join_cons_cons, IH. done.
  - rewrite Join_cons in *. simpl in *. by rewrite IH.
Qed.

Lemma Split_segments s sep :
  forallb snakeChar s = true -> sep = "_"%char ->
  Forall (fun seg => forallb wordChar seg = true) (Split s sep).
Proof.
  intros Hs ->. induction s as [|c s IH]; cbn [Split].
  - by constructor.
  - cbn [forallb] in Hs. apply andb_true_iff in Hs as [Hc Hs].
    specialize (IH Hs). case_bool_decide as E.
    + by constructor.
    + assert (Hwc : wordChar c = true).
      { unfold snakeChar in Hc. unfold wordChar. rewrite orb_true_iff in Hc.
        destruct Hc as [Hc|Hc]; [done|]. by apply bool_decide_eq_true in Hc. }
      destruct (Split s "_") as [|h t].
      * constructor; [|done]. cbn [forallb]. by rewrite Hwc.
      * apply Forall_cons in IH as [Hh Ht]. constructor; [|done].
        cbn [forallb]. by rewrite Hwc, Hh.
Qed.

Lemma wordChar_not_separator c : wordChar c = true -> isSeparator c = false.
Proof.
  destruct c as [[] [] [] [] [] [] [] []]; vm_compute; congruence.
Qed.

Lemma wordChar_not_upper c : wordChar c = true -> isUpper c = false.
Proof.
  destruct c as [[] [] [] [] [] [] [] []]; vm_compute; congruence.
Qed.

Lemma toLower_toUpper c : isLower c = true -> toLower (toUpper c) = c.
Proof.
  destruct c as [[] [] [] [] [] [] [] []]; vm_compute; congruence.
Qed.

Lemma toUpper_isUpper c : isLower c = true -> isUpper (toUpper c) = true.
Proof.
  destruct c as [[] [] [] [] [] [] [] []]; vm_compute; congruence.
Qed.

Lemma Title_from_word seg : forall prev,
  isSeparator prev = false -> forallb wordChar seg = true ->
  Title_from prev seg = seg.
Proof.
  induction seg as [|c seg IH]; intros prev Hp Hs; cbn [Title_from]; [done|].
  cbn [forallb] in Hs. apply andb_true_iff in Hs as [Hc Hs].
  rewrite Hp. f_equal. apply IH; [|done]. by apply wordChar_not_separator.
Qed.

Lemma Title_word seg :
  forallb wordChar seg = true -> Title seg = capitalizeFirst seg.
Proof.
  destruct seg as [|c seg]; [done|]. cbn [forallb]. intros H.
  apply andb_true_iff in H as [Hc Hs]. unfold Title. cbn [Title_from capitalizeFirst].
  f_equal. apply Title_from_word; [|done]. by apply wordChar_not_separator.
Qed.

Lemma pascalJoined_snake s :
  forallb snakeChar s = true ->
  pascalJoined s = concat (map capitalizeFirst (Split s "_")).
Proof.
  intros Hs. unfold pascalJoined. change (lit "") with (@nil ascii).
  rewrite Join_empty_sep. f_equal.
  pose proof (Split_segments s "_" Hs eq_refl) as Hsegs.
  induction Hsegs as [|seg segs Hseg _ IH]; [done|].
  cbn [map]. by rewrite Title_word, IH.
Qed.

Lemma ToSnakeCase_from_word r rest : forall i,
  forallb wordChar r = true ->
  ToSnakeCase_from i (r ++ rest) = r ++ ToSnakeCase_from (i + length r) rest.
Proof.
  induction r as [|c r IH]; intros i Hr; cbn [app length ToSnakeCase_from].
  - by rewrite Nat.add_0_r.
  - cbn [forallb] in Hr. apply andb_true_iff in Hr as [Hc Hr].
    rewrite (wordChar_not_upper c Hc). cbn [app]. f_equal.
    rewrite IH by done. f_equal. f_equal. lia.
Qed.

Lemma ToSnakeCase_from_segments segs : forall i,
  0 < i ->
  Forall (fun seg => forallb wordChar seg = true) segs ->
  Forall letterLed segs ->
  ToSnakeCase_from i (concat (map capitalizeFirst segs)) =
    concat (map (fun seg => ["_"%char] ++ seg) segs).
Proof.
  induction segs as [|seg segs IH]; intros i Hi Hw Hl; [done|].
  apply Forall_cons in Hw as [Hseg Hw]. apply Forall_cons in Hl as [Hled Hl].
  destruct Hled as (c & rest & -> & Hc).
  cbn [forallb] in Hseg. apply andb_true_iff in Hseg as [_ Hrest].
  cbn [map concat capitalizeFirst app ToSnakeCase_from].
  rewrite (toUpper_isUpper c Hc), (toLower_toUpper c Hc).
  destruct i as [|i]; [lia|]. cbn [Nat.ltb Nat.leb app]. do 2 f_equal.
  rewrite ToSnakeCase_from_word by done. f_equal. apply IH; [lia|done|done].
Qed.

Lemma ToSnakeCase_segments segs :
  segs <> [] ->
  Forall (fun seg => forallb wordChar seg = true) segs ->
  Forall letterLed segs ->
  ToSnakeCase (concat (map capitalizeFirst segs)) = Join segs ["_"%char].
Proof.
  destruct segs as [|seg segs]; [done|]. intros _ Hw Hl.
  apply Forall_cons in Hw as [Hseg Hw]. apply Forall_cons in Hl as [Hled Hl].
  destruct Hled as (c & rest & -> & Hc).
  cbn [forallb] in Hseg. apply andb_true_iff in Hseg as [_ Hrest].
  rewrite Join_cons. unfold ToSnakeCase.
  cbn [map concat capitalizeFirst app ToSnakeCase_from].
  rewrite (toUpper_isUpper c Hc), (toLower_toUpper c Hc).
  cbn [Nat.ltb Nat.leb app]. f_equal.
  rewrite ToSnakeCase_from_word by done. f_equal.
  apply ToSnakeCase_from_segments; [lia|done|done].
Qed.

(** * The claims *)

(** C1 (the code departs from the claim).  On
    [CREATE TABLE shard.orders_{region} (...)] the greedy [(\w+)] also takes
    the underscore, the optional group for the templated suffix then finds a
    brace where it wants an underscore and matches nothing, and the table
    name [Parse] stores is [orders_], not [orders]. *)
Theorem C1_table_name_keeps_underscore :
  FindStringSubmatch tableNameRe sql_orders =
    [lit "CREATE TABLE shard.orders_"; lit "orders_"] /\
  TableName (snd (Parse sql_orders (NewSQLParser [lit "OrderPO"; lit "Order"]))) =
    lit "orders_" /\
  (TableName (snd (Parse sql_orders (NewSQLParser [lit "OrderPO"; lit "Order"]))) <>
     lit "orders") /\
  StructName (snd (Parse sql_orders (NewSQLParser []))) = lit "Orders".
Proof. vm_compute. repeat split; congruence. Qed.

(** C2, the claim as written fails on both sides: the plain
    [datetime.DateTime] of a NOT NULL column is no nullable wrapper and is
    read through [.Time()], and the nullable wrapper [sql.NullFloat32] of a
    nullable FLOAT column is read directly. *)
Lemma C2_counterexample :
  let p := snd (Parse sql_two_columns (NewSQLParser [lit "P"; lit "E"])) in
  map FieldName (Fields p) = [lit "CreatedAt"; lit "Ratio"] /\
  map FieldType (Fields p) = [lit "datetime.DateTime"; lit "sql.NullFloat32"] /\
  map isNullableWrapper (map FieldType (Fields p)) = [false; true] /\
  map toEntityAccess (Fields p) = [lit "CreatedAt.Time()"; lit "Ratio"] /\
  map toEntityLine (Fields p) =
    [Val (TAB ++ TAB ++ lit "WithCreatedAt(p.CreatedAt.Time())." ++ NL);
     Val (TAB ++ TAB ++ lit "WithRatio(p.Ratio)." ++ NL)].
Proof. vm_compute. done. Qed.

(** C2 (amended).  The PO-to-entity function holds one builder call per
    field, in order.  The call reads [.String], [.Int32], [.Int64],
    [.Float64] or [.Time.Time()] for the wrappers [sql.NullString],
    [sql.NullInt32], [sql.NullInt64], [sql.NullFloat64] and
    [datetime.NullDateTime], reads [.Time()] for the plain
    [datetime.DateTime], and reads the field itself for every other type
    that is not a nullable wrapper. *)
Theorem C2_po_to_entity_access (p : SQLParser) (out : str) :
  renderStruct p = Val out ->
  SecondStructName p <> [] ->
  (exists before lines after,
     Forall2 (fun f l => toEntityLine f = Val l) (Fields p) lines /\
     out = before ++ toEntityHeader p ++ concat lines ++
           (TAB ++ TAB ++ lit "Build()" ++ NL ++ lit "}" ++ NL ++ NL) ++ after) /\
  forall f, f ∈ Fields p ->
    toEntityLine f =
      Val (TAB ++ TAB ++ lit "With" ++ Title (privateName (FieldName f)) ++
           lit "(p." ++ toEntityAccess f ++ lit ")." ++ NL) /\
    (FieldType f = lit "sql.NullString" ->
       toEntityAccess f = FieldName f ++ lit ".String") /\
    (FieldType f = lit "sql.NullInt32" ->
       toEntityAccess f = FieldName f ++ lit ".Int32") /\
    (FieldType f = lit "sql.NullInt64" ->
       toEntityAccess f = FieldName f ++ lit ".Int64") /\
    (FieldType f = lit "sql.NullFloat64" ->
       toEntityAccess f = FieldName f ++ lit ".Float64") /\
    (FieldType f = lit "datetime.NullDateTime" ->
       toEntityAccess f = FieldName f ++ lit ".Time.Time()") /\
    (FieldType f = lit "datetime.DateTime" ->
       toEntityAccess f = FieldName f ++ lit ".Time()") /\
    (isNullableWrapper (FieldType f) = false ->
     FieldType f <> lit "datetime.DateTime" ->
       toEntityAccess f = FieldName f).
Proof.
  intros Hout Hsecond. rewrite renderStruct_spec in Hout.
  destruct (streq (SecondStructName p) "") eqn:E;
    [by apply streq_true in E|clear E].
  destruct (existsb emptyName (Fields p)) eqn:Hnames; [done|].
  apply Val_inj in Hout as <-.
  assert (Hline : forall f, f ∈ Fields p -> toEntityLine f = Val (toEntityText f)).
  { intros f Hf. rewrite toEntityLine_spec.
    pose proof (proj1 (existsb_emptyName_false _) Hnames f Hf) as Hf'.
    unfold emptyName.
    destruct (streq (FieldName f) "") eqn:E; [by apply streq_true in E|done]. }
  split.
  - exists (poSection p ++ entityHeader p ++
            concat (map entityFieldText (Fields p)) ++ (lit "}" ++ NL ++ NL) ++
            validateStub p),
           (map toEntityText (Fields p)),
           (toPoHeader p ++ concat (map toPoText (Fields p)) ++
            (TAB ++ lit "}, nil" ++ NL ++ lit "}" ++ NL ++ NL) ++
            if needTimeFunc (Fields p) then timeFuncText else []).
    split; [by apply writeEach_lines|].
    unfold entitySection. apply app_regroup.
  - intros f Hf. split; [by rewrite Hline|].
    unfold toEntityAccess.
    repeat (split; [intros ->; reflexivity|]).
    intros Hw Hd.
    repeat match goal with
    | |- context [streq (FieldType f) ?t] =>
        let E := fresh "E" in
        destruct (streq (FieldType f) t) eqn:E;
        [apply streq_true in E;
         first [exact (False_ind _ (Hd E))
               |rewrite E in Hw; vm_compute in Hw; discriminate Hw]
        |clear E]
    end.
    reflexivity.
Qed.

(** Parsed from two NOT NULL and nullable columns with both names given. *)
Lemma C2_po_to_entity_access_witness :
  exists out,
    renderStruct (snd (Parse sql_two_columns (NewSQLParser [lit "P"; lit "E"]))) =
      Val out /\
    exists before lines after,
      Forall2 (fun f l => toEntityLine f = Val l)
        (Fields (snd (Parse sql_two_columns (NewSQLParser [lit "P"; lit "E"]))))
        lines /\
      out = before ++
            toEntityHeader (snd (Parse sql_two_columns (NewSQLParser [lit "P"; lit "E"]))) ++
            concat lines ++
            (TAB ++ TAB ++ lit "Build()" ++ NL ++ lit "}" ++ NL ++ NL) ++ after.
Proof.
  eexists. split; [vm_compute; reflexivity|].
  refine (proj1 (C2_po_to_entity_access
            (snd (Parse sql_two_columns (NewSQLParser [lit "P"; lit "E"]))) _ _ _)).
  - vm_compute. reflexivity.
  - vm_compute. discriminate.
Defined.

(** C3, the claim as written fails.  The other clause [DEFAULT 'XNULL'] holds
    no NOT NULL token, no DEFAULT NULL and no NULL standing as a word of its
    own, so the claim makes the column non-nullable; [Parse] gives it the
    type of the nullable table. *)
Lemma C3_counterexample :
  let p := snd (Parse sql_xnull (NewSQLParser [lit "P"; lit "E"])) in
  FindAllStringSubmatch fieldRe sql_xnull =
    [[lit "`mode` VARCHAR(16) DEFAULT 'XNULL' COMMENT 'm'"; lit "mode";
      lit "VARCHAR(16)"; lit "(16)"; lit "DEFAULT 'XNULL'"; lit "m"]] /\
  ~ hasNotNullToken (lit "DEFAULT 'XNULL'") /\
  ~ hasDefaultNull (lit "DEFAULT 'XNULL'") /\
  ~ hasStandaloneNull (lit "DEFAULT 'XNULL'") /\
  map FieldType (Fields p) = [lit "sql.NullString"] /\
  mapIndex (TypeMappings p) (lit "VARCHAR") = lit "string".
Proof.
  cbv zeta.
  rewrite <- MatchString_notNullRegex, <- MatchString_defaultNullRe,
    <- MatchString_standaloneNullRe.
  split; [vm_compute; reflexivity|].
  split; [vm_compute; discriminate|].
  split; [vm_compute; discriminate|].
  split; [vm_compute; discriminate|].
  split; vm_compute; reflexivity.
Qed.

(** C3 (amended).  For the i-th column match: if the other clause holds a
    NOT NULL token (any letter case, white space between the words, a word
    boundary on both sides) the type comes from the non-nullable table;
    otherwise, if it holds DEFAULT NULL or the letters NULL followed by a
    word boundary (any letter case, whatever precedes the letters), the type
    comes from the nullable table; if it holds none of these, from the
    non-nullable table. *)
Theorem C3_nullability_policy (sqlContent : str) (p : SQLParser) (i : nat)
    (m : list str) :
  FindAllStringSubmatch fieldRe sqlContent !! i = Some m ->
  exists whole name ty g3 other comment f,
    m = [whole; name; ty; g3; other; comment] /\
    Fields (snd (Parse sqlContent p)) !! (length (Fields p) + i) = Some f /\
    (hasNotNullToken other ->
       FieldType f = mapIndex (TypeMappings p) (sqlTypeOf ty)) /\
    (~ hasNotNullToken other ->
     hasDefaultNull other \/ hasNullBeforeBoundary other ->
       FieldType f = mapIndex (NullableTypeMappings p) (sqlTypeOf ty)) /\
    (~ hasNotNullToken other ->
     ~ hasDefaultNull other -> ~ hasNullBeforeBoundary other ->
       FieldType f = mapIndex (TypeMappings p) (sqlTypeOf ty)).
Proof.
  intros Hm.
  destruct (Parse_column sqlContent p i m Hm)
    as (whole & name & ty & g3 & other & comment & -> & Hf).
  exists whole, name, ty, g3, other, comment, (columnField p name ty other comment).
  split; [done|]. split; [done|]. cbn [FieldType columnField].
  pose proof (isNullableOf_true other) as Hn.
  destruct (isNullableOf other).
  - destruct (proj1 Hn eq_refl) as [Hnot Hnull]. repeat split; intros; tauto.
  - assert (Hno : ~ (~ hasNotNullToken other /\
                     (hasDefaultNull other \/ hasNullBeforeBoundary other))).
    { intros H. apply Hn in H. discriminate. }
    repeat split; intros; tauto.
Qed.

Lemma C3_nullability_policy_witness :
  exists f,
    Fields (snd (Parse sql_user_name (NewSQLParser [lit "P"; lit "E"]))) !! 0 = Some f /\
    FieldType f = lit "string".
Proof.
  destruct (C3_nullability_policy sql_user_name (NewSQLParser [lit "P"; lit "E"]) 0
              [lit "`user_name` VARCHAR(64) NOT NULL COMMENT 'user name'";
               lit "user_name"; lit "VARCHAR(64)"; lit "(64)"; lit "NOT NULL";
               lit "user name"])
    as (whole & name & ty & g3 & other & comment & f & Hm & Hf & Hnot & _).
  - vm_compute. reflexivity.
  - exists f. split; [exact Hf|].
    injection Hm as _ _ <- _ <- _. rewrite Hnot.
    + vm_compute. reflexivity.
    + apply MatchString_notNullRegex. vm_compute. reflexivity.
Defined.

(** C4.  For the i-th column match whose upper-cased, parameter-stripped
    keyword is missing from the table its nullability selects: [Parse]
    returns nil, the descriptor's type is the empty string, and nothing in
    the emitter turns on it: the PO line carries an empty type column, the
    entity type stays empty, the field is read directly, the only panic of
    rendering is that of an empty derived field name, and every completed
    rendering holds the PO line. *)
Theorem C4_unmapped_type_is_empty (sqlContent : str) (p : SQLParser) (i : nat)
    (m : list str) :
  FindAllStringSubmatch fieldRe sqlContent !! i = Some m ->
  exists whole name ty g3 other comment f,
    m = [whole; name; ty; g3; other; comment] /\
    fst (Parse sqlContent p) = Val None /\
    Fields (snd (Parse sqlContent p)) !! (length (Fields p) + i) = Some f /\
    ((if isNullableOf other then NullableTypeMappings p else TypeMappings p)
       !! sqlTypeOf ty = None ->
     FieldType f = [] /\
     (exists tail,
        poFieldLine f =
          TAB ++ padRight 30 (FieldName f) ++ lit " " ++ replicate 20 " "%char ++
          lit " `db:" ++ DQ ++ OriginalField f ++ DQ ++ tail) /\
     entityFieldType (FieldType f) = [] /\
     toEntityAccess f = FieldName f /\
     (forall e, renderStruct (snd (Parse sqlContent p)) = Panicked e ->
        SecondStructName (snd (Parse sqlContent p)) <> [] /\
        exists g, g ∈ Fields (snd (Parse sqlContent p)) /\ FieldName g = []) /\
     (forall out, renderStruct (snd (Parse sqlContent p)) = Val out ->
        exists before after, out = before ++ poFieldLine f ++ after)).
Proof.
  intros Hm.
  destruct (Parse_column sqlContent p i m Hm)
    as (whole & name & ty & g3 & other & comment & -> & Hf).
  exists whole, name, ty, g3, other, comment, (columnField p name ty other comment).
  split; [done|]. split; [by rewrite Parse_spec|]. split; [done|].
  intros Hnone.
  assert (Ht : FieldType (columnField p name ty other comment) = []).
  { cbn [FieldType columnField]. unfold mapIndex.
    destruct (isNullableOf other); by rewrite Hnone. }
  split; [done|]. split; [|split; [|split; [|split]]].
  - apply poFieldLine_empty_type, Ht.
  - by rewrite Ht.
  - unfold toEntityAccess. by rewrite Ht.
  - intros e He. rewrite renderStruct_spec in He.
    destruct (streq (SecondStructName _) "") eqn:Hs; [done|].
    apply streq_false in Hs. split; [done|].
    destruct (existsb emptyName _) eqn:Hn; [|by destruct (needTimeFunc _)].
    by apply existsb_emptyName_true.
  - intros out Hout. by eapply renderStruct_contains_poFieldLine.
Qed.

Lemma C4_unmapped_type_is_empty_witness :
  exists f,
    Fields (snd (Parse sql_enum (NewSQLParser [lit "P"; lit "E"]))) !! 0 = Some f /\
    FieldType f = [].
Proof.
  destruct (C4_unmapped_type_is_empty sql_enum (NewSQLParser [lit "P"; lit "E"]) 0
              [lit "`kind` ENUM NOT NULL COMMENT 'k'"; lit "kind"; lit "ENUM"; [];
               lit "NOT NULL"; lit "k"])
    as (whole & name & ty & g3 & other & comment & f & Hm & _ & Hf & Hnone).
  - vm_compute. reflexivity.
  - exists f. split; [exact Hf|].
    injection Hm as _ _ <- _ <- _. apply Hnone. vm_compute. reflexivity.
Defined.

(** C5.  For the i-th column match: a type token that starts with VARCHAR
    gives the tag [validate:"max=<n>"] with [<n>] the first run of digits of
    the type token, whatever the other clause holds; otherwise an other
    clause that holds the encryption marker gives [validate:"omitempty"];
    otherwise there is no tag.  The descriptor has one [Validate] string, so
    at most one tag. *)
Theorem C5_validation_tag (sqlContent : str) (p : SQLParser) (i : nat)
    (m : list str) :
  FindAllStringSubmatch fieldRe sqlContent !! i = Some m ->
  exists whole name ty g3 other comment f,
    m = [whole; name; ty; g3; other; comment] /\
    Fields (snd (Parse sqlContent p)) !! (length (Fields p) + i) = Some f /\
    ((exists rest, ty = lit "VARCHAR" ++ rest) ->
       Validate f = lit "validate:" ++ DQ ++ lit "max=" ++ firstDigitRun ty ++ DQ) /\
    (~ (exists rest, ty = lit "VARCHAR" ++ rest) ->
     (exists pre post, other = pre ++ lit "加密" ++ post) ->
       Validate f = lit "validate:" ++ DQ ++ lit "omitempty" ++ DQ) /\
    (~ (exists rest, ty = lit "VARCHAR" ++ rest) ->
     ~ (exists pre post, other = pre ++ lit "加密" ++ post) ->
       Validate f = []).
Proof.
  intros Hm.
  destruct (Parse_column sqlContent p i m Hm)
    as (whole & name & ty & g3 & other & comment & -> & Hf).
  exists whole, name, ty, g3, other, comment, (columnField p name ty other comment).
  split; [done|]. split; [done|].
  cbn [Validate columnField]. unfold validateOf.
  rewrite <- HasPrefix_true, <- Contains_true.
  destruct (HasPrefix ty "VARCHAR"), (Contains other "加密");
    rewrite ?FindString_digitsRe; repeat split; intros; done.
Qed.

Lemma C5_validation_tag_witness :
  exists f,
    Fields (snd (Parse sql_user_name (NewSQLParser [lit "P"; lit "E"]))) !! 0 = Some f /\
    Validate f = lit "validate:" ++ DQ ++ lit "max=64" ++ DQ.
Proof.
  destruct (C5_validation_tag sql_user_name (NewSQLParser [lit "P"; lit "E"]) 0
              [lit "`user_name` VARCHAR(64) NOT NULL COMMENT 'user name'";
               lit "user_name"; lit "VARCHAR(64)"; lit "(64)"; lit "NOT NULL";
               lit "user name"])
    as (whole & name & ty & g3 & other & comment & f & Hm & Hf & Hmax & _).
  - vm_compute. reflexivity.
  - exists f. split; [exact Hf|].
    injection Hm as _ _ <- _ _ _. rewrite Hmax by (by exists (lit "(64)")).
    vm_compute. reflexivity.
Defined.

(** C6, the claim as written fails: the identifiers [address_line_2] and
    [_id] are lower-case snake_case, their PascalCase forms begin with no F,
    and the way back loses an underscore. *)
Lemma C6_counterexample :
  forallb snakeChar (lit "address_line_2") = true /\
  HasPrefix (pascalJoined (lit "address_line_2")) (lit "F") = false /\
  ToPascalCase (lit "address_line_2") = lit "AddressLine2" /\
  ToSnakeCase (ToPascalCase (lit "address_line_2")) = lit "address_line2" /\
  (ToLower (ToSnakeCase (ToPascalCase (lit "address_line_2"))) <>
     ToLower (lit "address_line_2")) /\
  forallb snakeChar (lit "_id") = true /\
  HasPrefix (pascalJoined (lit "_id")) (lit "F") = false /\
  (ToLower (ToSnakeCase (ToPascalCase (lit "_id"))) <> ToLower (lit "_id")).
Proof. vm_compute. repeat split; congruence. Qed.

(** C6 (amended).  For a string of lower-case letters, digits and
    underscores whose joined PascalCase form does not begin with F:
    [ToPascalCase] is the concatenation of the underscore-delimited segments,
    each with its first letter in upper case; and when every segment is
    non-empty and begins with a letter, [ToSnakeCase] of it is the string
    itself. *)
Theorem C6_pascal_snake_round_trip (s : str) :
  forallb snakeChar s = true ->
  HasPrefix (pascalJoined s) (lit "F") = false ->
  ToPascalCase s = concat (map capitalizeFirst (Split s "_")) /\
  (Forall letterLed (Split s "_") -> ToSnakeCase (ToPascalCase s) = s).
Proof.
  intros Hs HF.
  assert (Hp : ToPascalCase s = concat (map capitalizeFirst (Split s "_"))).
  { unfold ToPascalCase. cbv zeta. rewrite HF, andb_false_r.
    by apply pascalJoined_snake. }
  split; [done|]. intros Hled. rewrite Hp.
  rewrite ToSnakeCase_segments.
  - apply Join_Split.
  - destruct (Split_nonempty s "_") as (h & t & ->). done.
  - by apply Split_segments.
  - done.
Qed.

Lemma C6_pascal_snake_round_trip_witness :
  ToPascalCase (lit "user_name") = lit "UserName" /\
  ToSnakeCase (ToPascalCase (lit "user_name")) = lit "user_name".
Proof.
  destruct (C6_pascal_snake_round_trip (lit "user_name")) as [Hp Hr].
  - vm_compute. reflexivity.
  - vm_compute. reflexivity.
  - split.
    + rewrite Hp. vm_compute. reflexivity.
    + apply Hr. vm_compute.
      repeat constructor; eexists _, _; (split; [reflexivity|]); reflexivity.
Defined.

(** C7, the claim as written fails: with no entity name configured a field
    of the nullable date-time type is rendered, and the helper is not. *)
Lemma C7_counterexample :
  let p := snd (Parse sql_created (NewSQLParser [lit "OrderPO"])) in
  map FieldType (Fields p) = [lit "datetime.NullDateTime"] /\
  renderStruct p = Val (poSection p) /\
  Contains (poSection p) timeFuncText = false.
Proof. vm_compute. done. Qed.

(** C7 (amended).  The helper is the last thing [GenerateStruct] writes, and
    it writes it exactly when an entity name is configured and some field
    has the PO type [datetime.NullDateTime].  Read as a function, the emitted
    helper sends the zero time to a wrapper that is not valid and any other
    time to a valid wrapper that carries it. *)
Theorem C7_time_helper_emitted (p : SQLParser) (out : str) :
  renderStruct p = Val out ->
  (timeFuncText `suffix_of` out <->
     SecondStructName p <> [] /\
     exists f, f ∈ Fields p /\ FieldType f = lit "datetime.NullDateTime") /\
  (forall (Time DateTime : Type) (IsZero : Time -> bool)
          (NewDateTime : Time -> DateTime) (zeroDateTime : DateTime) (t : Time),
     (IsZero t = true ->
        ndtValid (TimeToNullDateTime IsZero NewDateTime zeroDateTime t) = false) /\
     (IsZero t = false ->
        TimeToNullDateTime IsZero NewDateTime zeroDateTime t =
          {| ndtTime := NewDateTime t; ndtValid := true |})).
Proof.
  intros Hout. split.
  - rewrite renderStruct_spec in Hout.
    destruct (streq (SecondStructName p) "") eqn:Hsecond.
    + apply Val_inj in Hout as <-. apply streq_true in Hsecond. split.
      * intros H. by apply timeFuncText_not_suffix in H; [|apply poSection_last].
      * by intros [H _].
    + apply streq_false in Hsecond.
      destruct (existsb emptyName (Fields p)); [done|]. apply Val_inj in Hout as <-.
      destruct (needTimeFunc (Fields p)) eqn:Hneed.
      * apply needTimeFunc_true in Hneed. split; [done|]. intros _.
        exists (poSection p ++ entitySection p). apply app_assoc.
      * split.
        -- intros H. apply timeFuncText_not_suffix in H; [done|].
           rewrite app_nil_r, last_app, entitySection_last. done.
        -- intros [_ H]. apply needTimeFunc_true in H. congruence.
  - intros Time DateTime IsZero NewDateTime zeroDateTime t.
    unfold TimeToNullDateTime. split; intros ->; done.
Qed.

(** A parser with an entity name and one nullable date-time column. *)
Lemma C7_time_helper_emitted_witness :
  exists out,
    renderStruct (snd (Parse sql_created_plain (NewSQLParser [lit "P"; lit "E"]))) =
      Val out /\
    timeFuncText `suffix_of` out.
Proof.
  eexists. split; [vm_compute; reflexivity|].
  refine (proj2 (proj1 (C7_time_helper_emitted
            (snd (Parse sql_created_plain (NewSQLParser [lit "P"; lit "E"]))) _ _)) _).
  - vm_compute. reflexivity.
  - split; [vm_compute; discriminate|].
    eexists. split; [vm_compute; left|]. vm_compute. reflexivity.
Defined.

(** C8 (the code departs from the claim).  A column named [f] matches the
    column pattern, its derived field name is empty once the marker letter is
    stripped, and with an entity name configured [GenerateStruct] panics on
    [field.FieldName[:1]]. *)
Theorem C8_empty_field_name_panics :
  let p := snd (Parse sql_f (NewSQLParser [lit "P"; lit "E"])) in
  fst (Parse sql_f (NewSQLParser [lit "P"; lit "E"])) = Val None /\
  SecondStructName p = lit "E" /\
  map FieldName (Fields p) = [[]] /\
  renderStruct p = Panicked (SliceOutOfRange 1 0) /\
  forall os outputDir,
    fst (GenerateStruct os outputDir p) = Panicked (SliceOutOfRange 1 0).
Proof.
  cbv zeta. split; [|split; [|split; [|split]]]; vm_compute; reflexivity.
Qed.

(** C9.  [GenerateStruct] only reads the parser: whatever the state [Parse]
    left, whatever the file system answers, and whether rendering completes
    or panics, the table name, both struct names, the field list and both
    type tables are the same after the call. *)
Theorem C9_GenerateStruct_leaves_parser (os : OS) (outputDir sqlContent : str)
    (p0 : SQLParser) :
  let p := snd (Parse sqlContent p0) in
  let p' := snd (GenerateStruct os outputDir p) in
  TableName p' = TableName p /\ StructName p' = StructName p /\
  SecondStructName p' = SecondStructName p /\ Fields p' = Fields p /\
  TypeMappings p' = TypeMappings p /\
  NullableTypeMappings p' = NullableTypeMappings p.
Proof.
  cbv zeta. generalize (snd (Parse sqlContent p0)). intros p.
  assert (H : snd (GenerateStruct os outputDir p) = p).
  { unfold GenerateStruct, bind, gets, lift, ret, id. cbv beta iota.
    destruct (renderStruct p); [|done]. by destruct (WriteFile os _ _). }
  by rewrite H.
Qed.

(** C10.  [Parse] returns nil for every input and every parser state and
    never panics; where the table pattern finds nothing the table name is
    left as it was, and where the column pattern finds nothing so is the
    field list, both empty for a parser fresh from [NewSQLParser].  The
    errors the core returns are exactly the wrapped read error of
    [LoadSQLFile] and the wrapped write error of [GenerateStruct]. *)
Theorem C10_Parse_never_fails (os : OS) (sqlContent path outputDir : str)
    (p : SQLParser) (names : list str) :
  fst (Parse sqlContent p) = Val None /\
  (FindStringSubmatch tableNameRe sqlContent = [] ->
     TableName (snd (Parse sqlContent p)) = TableName p /\
     TableName (snd (Parse sqlContent (NewSQLParser names))) = []) /\
  (FindAllStringSubmatch fieldRe sqlContent = [] ->
     Fields (snd (Parse sqlContent p)) = Fields p /\
     Fields (snd (Parse sqlContent (NewSQLParser names))) = []) /\
  (forall e, fst (LoadSQLFile os path p) = Val (Some e) <->
             exists cause, ReadFile os path = inr cause /\
                           e = Errorf "读取SQL文件失败: " cause) /\
  (forall name e, fst (GenerateStruct os outputDir p) = Val (name, Some e) ->
             exists file text cause, renderStruct p = Val text /\
                           WriteFile os file text = Some cause /\
                           e = Errorf "写入文件失败: " cause).
Proof.
  split; [by rewrite Parse_spec|]. split; [|split; [|split]].
  - intros H. rewrite !Parse_spec. cbn [snd TableName]. unfold afterTableName.
    by rewrite H.
  - intros H. rewrite !Parse_spec. cbn [snd Fields]. rewrite H.
    cbn [map]. by rewrite !app_nil_r.
  - intros e. unfold LoadSQLFile. destruct (ReadFile os path) as [content|cause].
    + rewrite Parse_spec. cbn [fst]. split; [done|]. by intros (? & ? & _).
    + unfold ret. cbn [fst]. split.
      * intros [= <-]. eauto.
      * intros (cause' & [= <-] & ->). done.
  - intros name e. unfold GenerateStruct, bind, gets, lift, ret, id. cbv beta iota.
    destruct (renderStruct p) as [text|]; [|done].
    destruct (WriteFile os _ text) as [cause|] eqn:E; cbn [fst]; [|done].
    intros [= <- <-]. eauto 10.
Qed.

(** * Further properties of the code *)

(** ** Every match the matcher returns is a match, captures included *)

Lemma star_greedy_sound {R} p (k : option ascii -> str -> option R) s : forall prev res,
  star_greedy p k prev s = Some res ->
  exists w rest, s = w ++ rest /\ forallb p w = true /\
                 k (cursorAfter prev w) rest = Some res.
Proof.
  induction s as [|c s IH]; intros prev res; cbn [star_greedy].
  - intros H. by exists [], [].
  - destruct (p c) eqn:Hc; [|intros H; by exists [], (c :: s)].
    destruct (star_greedy p k (Some c) s) as [x|] eqn:E.
    + intros [= <-]. apply IH in E as (w & rest & -> & Hw & H).
      exists (c :: w), rest. cbn [forallb cursorAfter app]. by rewrite Hc.
    + intros H. by exists [], (c :: s).
Qed.

Lemma star_lazy_sound {R} p (k : option ascii -> str -> option R) s : forall prev res,
  star_lazy p k prev s = Some res ->
  exists w rest, s = w ++ rest /\ forallb p w = true /\
                 k (cursorAfter prev w) rest = Some res /\
                 forall w1 w2, w = w1 ++ w2 -> w2 <> [] ->
                               k (cursorAfter prev w1) (w2 ++ rest) = None.
Proof.
  induction s as [|c s IH]; intros prev res; cbn [star_lazy].
  - destruct (k prev []) as [x|] eqn:E; [|done]. intros [= <-].
    exists [], []. repeat split; try done.
    intros w1 w2 H. symmetry in H. apply app_eq_nil in H as [_ ->]. done.
  - destruct (k prev (c :: s)) as [x|] eqn:E.
    + intros [= <-]. exists [], (c :: s). repeat split; try done.
      intros w1 w2 H. symmetry in H. apply app_eq_nil in H as [_ ->]. done.
    + destruct (p c) eqn:Hc; [|done]. intros H.
      apply IH in H as (w & rest & -> & Hw & H & Hmin).
      exists (c :: w), rest. cbn [forallb cursorAfter app]. rewrite Hc.
      repeat split; try done.
      intros w1 w2 Hsplit Hne. destruct w1 as [|c' w1].
      * cbn [app cursorAfter] in *. by rewrite <- Hsplit.
      * injection Hsplit as <- ->. cbn [cursorAfter]. by apply Hmin.
Qed.

Lemma take_matched (w rest : str) :
  take (length (w ++ rest) - length rest) (w ++ rest) = w.
Proof. by rewrite length_app, Nat.add_sub, take_app_length. Qed.

Lemma exec_sound {R} r : forall (k : kont R) cs prev s res,
  exec r k cs prev s = Some res ->
  exists w rest cs',
    s = w ++ rest /\ MatchesC r prev w rest cs cs' /\
    k cs' (cursorAfter prev w) rest = Some res.
Proof.
  induction r as [|p|r1 IH1 r2 IH2|r1 IH1 r2 IH2|p|p|r1 IH1|g r1 IH1|];
    intros k cs prev s res; cbn [exec MatchesC].
  - intros H. by exists [], s, cs.
  - destruct s as [|c s]; [done|]. destruct (p c) eqn:Hc; [|done].
    intros H. exists [c], s, cs. eauto 10.
  - intros H. apply IH1 in H as (w1 & rest1 & cs1 & -> & H1 & H).
    apply IH2 in H as (w2 & rest & cs2 & -> & H2 & H).
    exists (w1 ++ w2), rest, cs2. rewrite <- app_assoc, cursorAfter_app.
    split; [done|]. split; [|done]. by exists w1, w2, cs1.
  - destruct (exec r1 k cs prev s) as [x|] eqn:E.
    + intros [= <-]. apply IH1 in E as (w & rest & cs' & ? & ? & ?).
      exists w, rest, cs'. eauto.
    + intros H. apply IH2 in H as (w & rest & cs' & ? & ? & ?).
      exists w, rest, cs'. eauto.
  - intros H. apply star_greedy_sound in H as (w & rest & ? & ? & ?).
    exists w, rest, cs. eauto.
  - intros H. apply star_lazy_sound in H as (w & rest & ? & ? & ? & _).
    exists w, rest, cs. eauto.
  - destruct (exec r1 k cs prev s) as [x|] eqn:E.
    + intros [= <-]. apply IH1 in E as (w & rest & cs' & ? & ? & ?).
      exists w, rest, cs'. eauto.
    + intros H. exists [], s, cs. eauto.
  - intros H. apply IH1 in H as (w & rest & cs1 & -> & H1 & H).
    rewrite take_matched in H. exists w, rest, (<[g := w]> cs1). eauto.
  - destruct (xorb (isWordBefore prev) (isWordAfter s)) eqn:E; [|done].
    intros H. exists [], s, cs. eauto.
Qed.

Lemma matchAt_sound re prev s m rest :
  matchAt re prev s = Some (m, rest) ->
  exists w cs',
    s = w ++ rest /\
    MatchesC (pattern re) prev w rest (replicate (S (numSubexp re)) []) cs' /\
    m = <[0 := w]> cs'.
Proof.
  unfold matchAt. intros H.
  apply exec_sound in H as (w & rest' & cs' & -> & Hm & [= <- <-]).
  rewrite take_matched. eauto.
Qed.

Lemma search_sound re s : forall prev m rest,
  search re prev s = Some (m, rest) ->
  exists pre w cs',
    s = pre ++ w ++ rest /\
    MatchesC (pattern re) (cursorAfter prev pre) w rest
             (replicate (S (numSubexp re)) []) cs' /\
    m = <[0 := w]> cs'.
Proof.
  induction s as [|c s IH]; intros prev m rest; cbn [search].
  - destruct (matchAt re prev []) as [[m' rest']|] eqn:E; [|done].
    intros [= <- <-]. apply matchAt_sound in E as (w & cs' & ? & ? & ?).
    by exists [], w, cs'.
  - destruct (matchAt re prev (c :: s)) as [[m' rest']|] eqn:E.
    + intros [= <- <-]. apply matchAt_sound in E as (w & cs' & ? & ? & ?).
      by exists [], w, cs'.
    + intros H. apply IH in H as (pre & w & cs' & -> & ? & ?).
      by exists (c :: pre), w, cs'.
Qed.

Lemma findAll_sound re s : forall skip abut prev m,
  m ∈ findAll re skip abut prev s ->
  exists pre rest,
    matchAt re (cursorAfter prev pre) (drop (length pre) s) = Some (m, rest) /\
    pre = take (length pre) s /\ length pre <= length s.
Proof.
  induction s as [|c s IH]; intros skip abut prev m; destruct skip as [|n];
    cbn [findAll].
  - destruct (matchAt re prev []) as [[m' rest]|] eqn:E; [|by intros ?%elem_of_nil].
    destruct (_ && _); [by intros ?%elem_of_nil|].
    intros ->%list_elem_of_singleton. by exists [], rest.
  - by intros ?%elem_of_nil.
  - assert (Htail : forall n' abut',
              m ∈ findAll re n' abut' (Some c) s ->
              exists pre rest,
                matchAt re (cursorAfter prev pre) (drop (length pre) (c :: s)) =
                  Some (m, rest) /\
                pre = take (length pre) (c :: s) /\ length pre <= length (c :: s)).
    { intros n' abut' H. apply IH in H as (pre & rest & H & Hpre & Hlen).
      exists (c :: pre), rest. cbn [length drop take cursorAfter].
      split; [done|]. split; [by f_equal|lia]. }
    destruct (matchAt re prev (c :: s)) as [[m' rest]|] eqn:E; [|apply Htail].
    destruct (_ && _); [apply Htail|].
    intros [->|H]%elem_of_cons; [|by eapply Htail].
    exists [], rest. cbn [length drop cursorAfter take]. split; [done|]. split; [done|lia].
  - intros H. apply IH in H as (pre & rest & H & Hpre & Hlen).
    exists (c :: pre), rest. cbn [length drop take cursorAfter].
    split; [done|]. split; [by f_equal|simpl; lia].
Qed.

Lemma FindAllStringSubmatch_sound re s m :
  m ∈ FindAllStringSubmatch re s ->
  exists pre w rest cs',
    s = pre ++ w ++ rest /\
    MatchesC (pattern re) (cursorAfter None pre) w rest
             (replicate (S (numSubexp re)) []) cs' /\
    m = <[0 := w]> cs' /\
    matchAt re (cursorAfter None pre) (w ++ rest) = Some (m, rest).
Proof.
  intros H. apply findAll_sound in H as (pre & rest & H & Hpre & Hlen).
  pose proof H as H'. apply matchAt_sound in H' as (w & cs' & Hs & Hm & ->).
  exists pre, w, rest, cs'. rewrite <- Hs.
  split; [|done]. rewrite Hpre at 1. by rewrite take_drop.
Qed.

Lemma MatchesC_groupFree r : forall prev w rest cs cs',
  groupFree r = true ->
  MatchesC r prev w rest cs cs' <-> Matches r prev w rest /\ cs' = cs.
Proof.
  induction r as [|p|r1 IH1 r2 IH2|r1 IH1 r2 IH2|p|p|r1 IH1|g r1 IH1|];
    intros prev w rest cs cs' Hg; cbn [MatchesC Matches groupFree] in *; try done.
  - apply andb_true_iff in Hg as [Hg1 Hg2]. split.
    + intros (w1 & w2 & cs1 & -> & H1 & H2).
      apply IH1 in H1 as [H1 ->]; [|done]. apply IH2 in H2 as [H2 ->]; [|done].
      split; [|done]. by exists w1, w2.
    + intros [(w1 & w2 & -> & H1 & H2) ->]. exists w1, w2, cs.
      split; [done|]. split; [by apply IH1|by apply IH2].
  - apply andb_true_iff in Hg as [Hg1 Hg2].
    rewrite IH1, IH2 by done. tauto.
  - rewrite IH1 by done. tauto.
Qed.

(** ** The shape of a column match *)

Lemma MatchesC_Chr c prev w rest cs cs' :
  MatchesC (Chr c) prev w rest cs cs' <-> w = [c] /\ cs' = cs.
Proof.
  unfold Chr. cbn [MatchesC]. split.
  - intros [(x & -> & Hx) ->]. by apply bool_decide_eq_true in Hx as ->.
  - intros [-> ->]. split; [|done]. exists c. split; [done|].
    by apply bool_decide_eq_true.
Qed.

Lemma MatchesC_Plus p prev w rest cs cs' :
  MatchesC (Plus p) prev w rest cs cs' <->
  (w <> [] /\ forallb p w = true) /\ cs' = cs.
Proof.
  rewrite MatchesC_groupFree by done. by rewrite Matches_Plus.
Qed.

Lemma groupFree_Lit t : groupFree (Lit t) = true.
Proof. induction t as [|c t IH]; [done|]. cbn. exact IH. Qed.

Lemma MatchesC_Lit t prev w rest cs cs' :
  MatchesC (Lit t) prev w rest cs cs' <-> w = t /\ cs' = cs.
Proof.
  rewrite MatchesC_groupFree by apply groupFree_Lit. by rewrite Matches_Lit.
Qed.

Lemma fieldRe_pattern :
  pattern fieldRe = (fieldHead · Group 5 (StarLazy cls_dot) · Chr "'")%re.
Proof. reflexivity. Qed.

Lemma fieldHead_sound prev wh rest cs1 :
  MatchesC fieldHead prev wh rest (replicate 6 []) cs1 ->
  exists name ty g3 other ws1 letters digits ws2 ws3 ws4,
    cs1 = [[]; name; ty; g3; other; []] /\
    ty = letters ++ digits ++ g3 /\
    wh = ["`"%char] ++ name ++ ["`"%char] ++ ws1 ++ ty ++ ws2 ++ other ++ ws3 ++
         lit "COMMENT" ++ ws4 ++ ["'"%char] /\
    (name <> [] /\ forallb cls_w name = true) /\
    (letters <> [] /\ forallb cls_alpha letters = true /\
     forallb cls_d digits = true /\
     (g3 = [] \/
      exists n, n <> [] /\ forallb cls_d n = true /\ g3 = ["("%char] ++ n ++ [")"%char])) /\
    (isSpaces ws1 /\ isSpaces ws2 /\ isSpaces ws3 /\ isSpaces ws4) /\
    forallb cls_dot other = true.
Proof.
  unfold fieldHead. cbn [MatchesC].
  intros (w10 & q & c10 & -> & H & Hq).
  destruct H as (w9 & ws4 & c9 & -> & H & Hws4).
  destruct H as (w8 & cm & c8 & -> & H & Hcm).
  destruct H as (w7 & ws3 & c7 & -> & H & Hws3).
  destruct H as (w6 & other & c6 & -> & H & (c6' & [Hother ->] & ->)).
  destruct H as (w5 & ws2 & c5 & -> & H & Hws2).
  destruct H as (w4 & ty & c4 & -> & H & (c4' & Hty & ->)).
  destruct H as (w3 & ws1 & c3 & -> & H & Hws1).
  destruct H as (w2 & bq2 & c2 & -> & H & Hbq2).
  destruct H as (bq1 & name & c1 & -> & Hbq1 & (c1' & Hname & ->)).
  destruct Hty as (wld & g3 & cA & -> & (letters & digits & cB & -> & Hl & [Hd ->]) & Hg3).
  apply MatchesC_Chr in Hq as [-> ->], Hbq2 as [-> ->], Hbq1 as [-> ->].
  apply MatchesC_Plus in Hws4 as [Hws4 ->], Hws3 as [Hws3 ->], Hws2 as [Hws2 ->],
    Hws1 as [Hws1 ->], Hname as [Hname ->], Hl as [Hl ->].
  apply MatchesC_Lit in Hcm as [-> ->].
  exists name, ((letters ++ digits) ++ g3), g3, other, ws1, letters, digits,
    ws2, ws3, ws4.
  assert (Hg3' :
    (g3 = [] /\ c4' = <[1:=name]> (replicate 6 [])) \/
    (exists n, n <> [] /\ forallb cls_d n = true /\
               g3 = ["("%char] ++ n ++ [")"%char] /\
               c4' = <[3:=g3]> (<[1:=name]> (replicate 6 [])))).
  { destruct Hg3 as [(cG & Hg & ->)|[-> ->]]; [right|by left].
    destruct Hg as (wa & cp & cC & -> & (op & n & cD & -> & Hop & Hn) & Hcp).
    apply MatchesC_Chr in Hop as [-> ->], Hcp as [-> ->].
    apply MatchesC_Plus in Hn as [[Hn1 Hn2] ->].
    exists n. by rewrite <- !app_assoc. }
  split.
  { destruct Hg3' as [[-> ->]|(n & _ & _ & _ & ->)]; reflexivity. }
  split; [by rewrite <- app_assoc|].
  split; [by rewrite <- !app_assoc|].
  split; [done|]. split; [|done].
  destruct Hl as [Hl1 Hl2]. repeat split; try done.
  destruct Hg3' as [[-> _]|(n & ? & ? & ? & _)]; [by left|right; eauto].
Qed.

Lemma matchAt_fieldRe prev s m rest :
  matchAt fieldRe prev s = Some (m, rest) ->
  exists whole name ty g3 other comment,
    s = whole ++ rest /\ m = [whole; name; ty; g3; other; comment] /\
    isColumnText whole name ty g3 other comment.
Proof.
  unfold matchAt. rewrite fieldRe_pattern. cbn [exec numSubexp fieldRe].
  intros H. apply exec_sound in H as (wh & rest1 & cs1 & -> & Hhead & H).
  apply star_lazy_sound in H as (comment & rest2 & -> & Hdot & H & Hmin).
  cbn [exec Chr] in H. destruct rest2 as [|q rest2]; [done|].
  case_bool_decide as Hq; [subst q|done].
  assert (Hnq : "'"%char ∉ comment).
  { intros Hin. apply list_elem_of_split in Hin as (w1 & w2 & ->).
    specialize (Hmin w1 ("'"%char :: w2) eq_refl).
    cbn [exec Chr app] in Hmin. rewrite bool_decide_eq_true_2 in Hmin by done.
    assert (Hne : "'"%char :: w2 <> []) by done. specialize (Hmin Hne).
    discriminate Hmin. }
  clear Hmin.
  replace (wh ++ comment ++ "'"%char :: rest2)
    with ((wh ++ comment ++ ["'"%char]) ++ rest2) in H
    by (by rewrite <- !app_assoc).
  replace (comment ++ "'"%char :: rest2)
    with (comment ++ ["'"%char] ++ rest2) in H by done.
  rewrite !take_matched in H. injection H as <- <-.
  apply fieldHead_sound in Hhead
    as (name & ty & g3 & other & ws1 & letters & digits & ws2 & ws3 & ws4 &
        -> & Hty & -> & Hname & Hletters & Hws & Hother).
  exists (([("`"%char)] ++ name ++ ["`"%char] ++ ws1 ++ ty ++ ws2 ++ other ++ ws3 ++
           lit "COMMENT" ++ ws4 ++ ["'"%char]) ++ comment ++ ["'"%char]),
         name, ty, g3, other, comment.
  split; [by rewrite <- !app_assoc|]. split; [done|].
  exists ws1, letters, digits, ws2, ws3, ws4.
  split; [by rewrite <- !app_assoc|]. split; [done|].
  split; [by destruct Hletters as (? & ? & ? & ?)|]. done.
Qed.

Lemma FindAllStringSubmatch_fieldRe sqlContent m :
  m ∈ FindAllStringSubmatch fieldRe sqlContent ->
  exists pre post whole name ty g3 other comment,
    sqlContent = pre ++ whole ++ post /\
    m = [whole; name; ty; g3; other; comment] /\
    isColumnText whole name ty g3 other comment.
Proof.
  intros H. apply FindAllStringSubmatch_sound in H
    as (pre & w & rest & cs' & -> & _ & _ & H).
  apply matchAt_fieldRe in H
    as (whole & name & ty & g3 & other & comment & Hw & -> & Hcol).
  apply app_inv_tail in Hw as ->.
  by exists pre, rest, whole, name, ty, g3, other, comment.
Qed.

Lemma Split_head_no_sep kw sep tail :
  sep ∉ kw -> (tail = [] \/ exists r, tail = sep :: r) ->
  Split (kw ++ tail) sep !! 0 = Some kw.
Proof.
  induction kw as [|c kw IH]; intros Hkw Htail; cbn [app].
  - destruct Htail as [->|[r ->]]; [done|]. cbn [Split].
    by rewrite bool_decide_eq_true_2.
  - apply not_elem_of_cons in Hkw as [Hc Hkw]. cbn [Split].
    rewrite bool_decide_eq_false_2 by done.
    specialize (IH Hkw Htail).
    destruct (Split (kw ++ tail) sep) as [|h t]; [done|].
    cbn in *. by injection IH as ->.
Qed.

Lemma forallb_weaken (p q : ascii -> bool) s :
  (forall c, p c = true -> q c = true) -> forallb p s = true -> forallb q s = true.
Proof.
  intros Hpq. induction s as [|c s IH]; cbn [forallb]; [done|].
  intros [Hc Hs]%andb_true_iff. by rewrite (Hpq c Hc), IH.
Qed.

Lemma alnum_not_paren s :
  forallb (fun c => cls_alpha c || cls_d c) s = true -> "("%char ∉ s.
Proof.
  induction s as [|c s IH]; cbn [forallb]; [by intros _ ?%elem_of_nil|].
  intros [Hc Hs]%andb_true_iff. apply not_elem_of_cons. split; [|by apply IH].
  intros <-. by vm_compute in Hc.
Qed.

Lemma isColumnText_keyword whole name ty g3 other comment :
  isColumnText whole name ty g3 other comment ->
  exists kw, ty = kw ++ g3 /\ kw <> [] /\
             forallb (fun c => cls_alpha c || cls_d c) kw = true /\
             sqlTypeOf ty = ToUpper kw.
Proof.
  intros (ws1 & letters & digits & ws2 & ws3 & ws4 & _ & _ &
          (-> & Hl & Hl' & Hd & Hg3) & _).
  exists (letters ++ digits). rewrite <- app_assoc. split; [done|].
  assert (Hkw : forallb (fun c => cls_alpha c || cls_d c) (letters ++ digits) = true).
  { rewrite forallb_app. apply andb_true_iff. split.
    - eapply forallb_weaken; [|exact Hl']. by intros c ->.
    - eapply forallb_weaken; [|exact Hd]. intros c ->. apply orb_true_r. }
  split; [by destruct letters|]. split; [done|].
  unfold sqlTypeOf. rewrite app_assoc.
  rewrite Split_head_no_sep; [done|by apply alnum_not_paren|].
  destruct Hg3 as [->|(n & _ & _ & ->)]; [by left|right; eauto].
Qed.

(** X1.  Every descriptor [Parse] adds comes from a column definition that
    stands in the input: a back-quoted name of word characters, a type token
    (letters, digits, an optional parenthesised number), an other clause and
    a quoted comment without quote or line break, separated by white space.
    The descriptor keeps the name and the comment, its field name is the
    PascalCase of the name, and its type is looked up under the upper-cased
    type token without the parenthesised number. *)
Theorem X1_descriptor_from_column_text (sqlContent : str) (p : SQLParser)
    (i : nat) (f : FieldMeta) :
  Fields (snd (Parse sqlContent p)) !! (length (Fields p) + i) = Some f ->
  exists pre post whole name ty g3 other comment kw,
    sqlContent = pre ++ whole ++ post /\
    isColumnText whole name ty g3 other comment /\
    OriginalField f = name /\ FieldName f = ToPascalCase name /\
    Comment f = comment /\
    ty = kw ++ g3 /\
    FieldType f =
      mapIndex (if isNullableOf other then NullableTypeMappings p
                else TypeMappings p) (ToUpper kw).
Proof.
  rewrite Parse_spec. cbn [snd Fields]. rewrite lookup_app_r by lia.
  replace (length (Fields p) + i - length (Fields p)) with i by lia.
  rewrite list_lookup_fmap. intros Hf.
  destruct (FindAllStringSubmatch fieldRe sqlContent !! i) as [m|] eqn:Hm; [|done].
  apply Val_inj in Hf || injection Hf as <-.
  apply list_elem_of_lookup_2 in Hm.
  apply FindAllStringSubmatch_fieldRe in Hm
    as (pre & post & whole & name & ty & g3 & other & comment & -> & -> & Hcol).
  destruct (isColumnText_keyword _ _ _ _ _ _ Hcol) as (kw & Hty & _ & _ & Hkw).
  exists pre, post, whole, name, ty, g3, other, comment, kw.
  split; [done|]. split; [done|].
  unfold columnOfMatch. cbn [lookup list_lookup default from_option id].
  cbn [OriginalField FieldName Comment FieldType columnField].
  rewrite Hkw. repeat split; try done. by destruct (isNullableOf other).
Qed.

Lemma X1_descriptor_from_column_text_witness :
  exists pre post whole name ty g3 other comment kw,
    sql_three_columns = pre ++ whole ++ post /\
    isColumnText whole name ty g3 other comment /\
    name = lit "fcreated_at" /\ ToPascalCase name = lit "CreatedAt" /\
    comment = lit "created time" /\ ty = kw ++ g3.
Proof.
  destruct (X1_descriptor_from_column_text sql_three_columns
              (NewSQLParser [lit "UserPO"; lit "User"]) 1
              {| FieldName := lit "CreatedAt";
                 FieldType := lit "datetime.NullDateTime";
                 Comment := lit "created time"; Validate := [];
                 OriginalField := lit "fcreated_at" |})
    as (pre & post & whole & name & ty & g3 & other & comment & kw &
        Hs & Hcol & Hname & Hfield & Hcomment & Hty & _).
  - vm_compute. reflexivity.
  - exists pre, post, whole, name, ty, g3, other, comment, kw.
    cbn in Hname, Hfield, Hcomment. subst name comment.
    repeat split; done.
Defined.

(** X2.  [Parse] keeps the descriptors it finds in the parser and appends
    one descriptor per column match, in the order of the matches: the
    original names and the comments of the new descriptors are the first and
    the fifth submatches. *)
Theorem X2_parse_appends_in_order (sqlContent : str) (p : SQLParser) :
  let fs := Fields (snd (Parse sqlContent p)) in
  let ms := FindAllStringSubmatch fieldRe sqlContent in
  take (length (Fields p)) fs = Fields p /\
  length fs = length (Fields p) + length ms /\
  map OriginalField (drop (length (Fields p)) fs) =
    map (fun m => default [] (m !! 1)) ms /\
  map Comment (drop (length (Fields p)) fs) =
    map (fun m => default [] (m !! 5)) ms.
Proof.
  cbv zeta. rewrite Parse_spec. cbn [snd Fields].
  rewrite take_app_length, drop_app_length, length_app, length_map.
  split; [done|]. split; [done|].
  rewrite !map_map. split; apply map_ext; intros m; reflexivity.
Qed.

(** X3.  The struct name policy of [Parse]: a configured primary name is
    never replaced; an empty one becomes the PascalCase of the table name
    when the table pattern matches and stays empty when it does not.  The
    table name becomes the first submatch of the table pattern.  The entity
    name and both type tables are left alone. *)
Theorem X3_parse_struct_name_policy (sqlContent : str) (p : SQLParser) :
  let q := snd (Parse sqlContent p) in
  let tm := FindStringSubmatch tableNameRe sqlContent in
  (StructName p <> [] -> StructName q = StructName p) /\
  (StructName p = [] -> tm <> [] -> StructName q = ToPascalCase (TableName q)) /\
  (StructName p = [] -> tm = [] -> StructName q = []) /\
  (tm <> [] -> tm !! 1 = Some (TableName q)) /\
  SecondStructName q = SecondStructName p /\
  TypeMappings q = TypeMappings p /\
  NullableTypeMappings q = NullableTypeMappings p.
Proof.
  cbv zeta. rewrite Parse_spec. cbn [snd StructName TableName SecondStructName
    TypeMappings NullableTypeMappings]. unfold afterTableName.
  destruct (FindStringSubmatch_length tableNameRe sqlContent) as [E|E].
  - rewrite E. repeat split; done.
  - destruct (FindStringSubmatch tableNameRe sqlContent) as [|whole [|name [|]]];
      try done.
    cbn [lookup list_lookup default from_option id].
    destruct (streq (StructName p) "") eqn:Hs.
    + apply streq_true in Hs. repeat split; try done.
    + apply streq_false in Hs. repeat split; try done.
Qed.

(** X4.  [Parse] accumulates: a second call on the same parser keeps what
    the first call appended and appends what it would have appended to the
    original parser; neither call returns an error. *)
Theorem X4_parse_twice_accumulates (sql1 sql2 : str) (p : SQLParser) :
  let new sql := drop (length (Fields p)) (Fields (snd (Parse sql p))) in
  fst (Parse sql2 (snd (Parse sql1 p))) = Val None /\
  Fields (snd (Parse sql2 (snd (Parse sql1 p)))) =
    Fields p ++ new sql1 ++ new sql2.
Proof.
  cbv zeta. rewrite !Parse_spec. cbn [fst snd Fields]. split; [done|].
  rewrite !drop_app_length, <- app_assoc. reflexivity.
Qed.

(** ** The table name *)

Lemma search_matchAt re s : forall prev m rest,
  search re prev s = Some (m, rest) ->
  exists pre s', s = pre ++ s' /\
                 matchAt re (cursorAfter prev pre) s' = Some (m, rest).
Proof.
  induction s as [|c s IH]; intros prev m rest; cbn [search].
  - destruct (matchAt re prev []) as [[m' rest']|] eqn:E; [|done].
    intros [= <- <-]. by exists [], [].
  - destruct (matchAt re prev (c :: s)) as [[m' rest']|] eqn:E.
    + intros [= <- <-]. by exists [], (c :: s).
    + intros H. apply IH in H as (pre & s' & -> & H). by exists (c :: pre), s'.
Qed.

Lemma forallb_takeWhile p s : forallb p (takeWhile p s) = true.
Proof.
  induction s as [|c s IH]; [done|]. cbn [takeWhile].
  destruct (p c) eqn:Hc; [|done]. cbn [forallb]. by rewrite Hc.
Qed.

Lemma dropWhile_word_after s : isWordAfter (dropWhile cls_w s) = false.
Proof.
  induction s as [|c s IH]; [done|]. cbn [dropWhile].
  destruct (cls_w c) eqn:Hc; [done|]. cbn [isWordAfter]. exact Hc.
Qed.

Lemma tableSuffix_fails {R} (k : kont R) cs prev s :
  isWordAfter s = false -> exec tableSuffix k cs prev s = None.
Proof.
  intros Hs. unfold tableSuffix. cbn [exec Chr].
  destruct s as [|c s]; [done|]. case_bool_decide as Hc; [|done].
  subst c. cbn [isWordAfter] in Hs. by vm_compute in Hs.
Qed.

Lemma tableNameRe_pattern :
  pattern tableNameRe = (tableHead · Group 1 (Plus cls_w) · Opt tableSuffix)%re.
Proof. reflexivity. Qed.

Lemma matchAt_tableNameRe prev s m rest :
  matchAt tableNameRe prev s = Some (m, rest) ->
  exists schema name,
    s = lit "CREATE TABLE " ++ schema ++ lit "." ++ name ++ rest /\
    m = [lit "CREATE TABLE " ++ schema ++ lit "." ++ name; name] /\
    (schema <> [] /\ forallb cls_S schema = true) /\
    (name <> [] /\ forallb cls_w name = true) /\
    isWordAfter rest = false.
Proof.
  unfold matchAt. rewrite tableNameRe_pattern. cbn [exec numSubexp tableNameRe].
  intros H. apply exec_sound in H as (wh & rest1 & cs1 & -> & Hhead & H).
  apply MatchesC_groupFree in Hhead as [Hhead ->]; [|done].
  unfold tableHead in Hhead. cbn [Matches] in Hhead.
  destruct Hhead as (w1 & dot & -> & (ct & schema & -> & Hct & Hschema) & Hdot).
  apply Matches_Lit in Hct as ->. apply Matches_Plus in Hschema.
  assert (dot = ["."%char]) as ->.
  { unfold Chr in Hdot. cbn [Matches] in Hdot. destruct Hdot as (c & -> & Hc).
    by apply bool_decide_eq_true in Hc as ->. }
  unfold Plus in H. cbn [exec] in H.
  destruct rest1 as [|c s']; [done|]. destruct (cls_w c) eqn:Hc; [|done].
  rewrite star_greedy_total in H.
  2:{ intros prev' s''.
      destruct (exec tableSuffix _ _ prev' s'') as [x|]; [by exists x|eauto]. }
  rewrite tableSuffix_fails in H by apply dropWhile_word_after.
  set (w := (lit "CREATE TABLE " ++ schema) ++ ["."%char]) in *.
  replace (w ++ c :: s')
    with ((w ++ c :: takeWhile cls_w s') ++ dropWhile cls_w s') in H |- *
    by (by rewrite <- app_assoc, <- app_comm_cons, takeWhile_dropWhile).
  replace (c :: s')
    with ((c :: takeWhile cls_w s') ++ dropWhile cls_w s') in H
    by (by rewrite <- app_comm_cons, takeWhile_dropWhile).
  rewrite !take_matched in H. injection H as <- <-.
  exists schema, (c :: takeWhile cls_w s'). subst w.
  split; [by rewrite <- !app_assoc|]. split; [by rewrite <- !app_assoc|].
  split; [done|]. split; [|apply dropWhile_word_after].
  split; [done|]. cbn [forallb]. by rewrite Hc, forallb_takeWhile.
Qed.

(** X5.  When the table pattern matches, the table name [Parse] stores is
    a maximal run of word characters that follows [CREATE TABLE <schema>.]
    in the input: the text after the name does not begin with a letter, a
    digit or an underscore.  The optional suffix group never takes part, so
    the underscore that joins a templated suffix stays in the name. *)
Theorem X5_table_name_is_maximal_word (sqlContent : str) (p : SQLParser) :
  FindStringSubmatch tableNameRe sqlContent <> [] ->
  exists pre schema name post,
    sqlContent = pre ++ lit "CREATE TABLE " ++ schema ++ lit "." ++ name ++ post /\
    (schema <> [] /\ forallb cls_S schema = true) /\
    (name <> [] /\ forallb cls_w name = true) /\
    isWordAfter post = false /\
    FindStringSubmatch tableNameRe sqlContent =
      [lit "CREATE TABLE " ++ schema ++ lit "." ++ name; name] /\
    TableName (snd (Parse sqlContent p)) = name.
Proof.
  intros Hm.
  assert (Hq : TableName (snd (Parse sqlContent p)) =
               default [] (FindStringSubmatch tableNameRe sqlContent !! 1)).
  { rewrite Parse_spec. cbn [snd TableName]. unfold afterTableName.
    destruct (FindStringSubmatch tableNameRe sqlContent) as [|whole t]; [done|].
    by destruct (streq (StructName p) ""). }
  rewrite Hq. clear Hq. unfold FindStringSubmatch in *.
  destruct (search tableNameRe None sqlContent) as [[m rest]|] eqn:E; [|done].
  apply search_matchAt in E as (pre & s' & -> & E).
  apply matchAt_tableNameRe in E as (schema & name & -> & -> & Hs & Hn & Hr).
  exists pre, schema, name, rest. done.
Qed.

Lemma X5_table_name_is_maximal_word_witness :
  exists pre schema name post,
    sql_three_columns =
      pre ++ lit "CREATE TABLE " ++ schema ++ lit "." ++ name ++ post /\
    isWordAfter post = false /\
    TableName (snd (Parse sql_three_columns (NewSQLParser []))) = name.
Proof.
  destruct (X5_table_name_is_maximal_word sql_three_columns (NewSQLParser []))
    as (pre & schema & name & post & Hs & _ & _ & Hp & _ & Hn).
  - vm_compute. discriminate.
  - by exists pre, schema, name, post.
Defined.

(** X6.  The table pattern finds a table exactly when the input holds
    [CREATE TABLE ], a non-empty run of non-space bytes, a dot and a word
    character; when it does not, [Parse] leaves the table name and the
    primary struct name as they were. *)
Theorem X6_table_found_iff (sqlContent : str) (p : SQLParser) :
  (FindStringSubmatch tableNameRe sqlContent <> [] <->
   exists pre schema c post,
     sqlContent = pre ++ lit "CREATE TABLE " ++ schema ++ lit "." ++ c :: post /\
     schema <> [] /\ forallb cls_S schema = true /\ cls_w c = true) /\
  (FindStringSubmatch tableNameRe sqlContent = [] ->
   TableName (snd (Parse sqlContent p)) = TableName p /\
   StructName (snd (Parse sqlContent p)) = StructName p).
Proof.
  split.
  - split.
    + intros Hm. unfold FindStringSubmatch in Hm.
      destruct (search tableNameRe None sqlContent) as [[m rest]|] eqn:E; [|done].
      apply search_matchAt in E as (pre & s' & -> & E).
      apply matchAt_tableNameRe in E
        as (schema & name & -> & _ & [Hs1 Hs2] & [Hn1 Hn2] & _).
      destruct name as [|c name]; [done|]. cbn [forallb] in Hn2.
      apply andb_true_iff in Hn2 as [Hc _].
      exists pre, schema, c, (name ++ rest). by rewrite <- app_comm_cons.
    + intros (pre & schema & c & post & -> & Hs1 & Hs2 & Hc).
      assert (Hs : is_Some (search tableNameRe None
                (pre ++ lit "CREATE TABLE " ++ schema ++ lit "." ++ c :: post))).
      { apply search_is_Some.
        exists pre, (lit "CREATE TABLE " ++ schema ++ lit "." ++ [c]), post.
        split; [by rewrite <- !app_assoc|].
        rewrite tableNameRe_pattern. cbn [Matches].
        exists (lit "CREATE TABLE " ++ schema ++ lit "." ++ [c]), [].
        split; [by rewrite app_nil_r|]. split; [|by right].
        exists (lit "CREATE TABLE " ++ schema ++ lit "."), [c].
        split; [by rewrite <- !app_assoc|]. split.
        - unfold tableHead. cbn [Matches].
          exists (lit "CREATE TABLE " ++ schema), (lit ".").
          split; [by rewrite <- !app_assoc|]. split.
          + exists (lit "CREATE TABLE "), schema. split; [done|]. split.
            * by apply Matches_Lit.
            * by apply Matches_Plus.
          + unfold Chr. cbn [Matches]. by exists "."%char.
        - apply Matches_Plus. split; [done|]. cbn [forallb]. by rewrite Hc. }
      destruct Hs as [[m rest] Hs]. unfold FindStringSubmatch. rewrite Hs.
      apply search_length in Hs. by destruct m.
  - intros Hm. rewrite Parse_spec. cbn [snd TableName StructName].
    unfold afterTableName. by rewrite Hm.
Qed.

(** ** PascalCase *)


Lemma concat_Split s : concat (Split s "_") = withoutUnderscores s.
Proof.
  induction s as [|c s IH]; [done|]. cbn [Split]. unfold withoutUnderscores in *.
  cbn [List.filter]. case_bool_decide as Hc; cbn [negb concat app]; [done|].
  destruct (Split s "_") as [|h t]; cbn [concat app] in *; by rewrite <- IH.
Qed.


Lemma toUpper_F c : toUpper c = "F"%char <-> c = "f"%char \/ c = "F"%char.
Proof.
  split; [|by intros [->| ->]].
  destruct c as [[] [] [] [] [] [] [] []]; vm_compute; intros [=]; auto.
Qed.

Lemma Title_from_length seg : forall prev, length (Title_from prev seg) = length seg.
Proof. induction seg as [|c seg IH]; intros prev; cbn; [done|by rewrite IH]. Qed.



Lemma pascalJoined_concat s : pascalJoined s = concat (map Title (Split s "_")).
Proof. unfold pascalJoined. change (lit "") with (@nil ascii). apply Join_empty_sep. Qed.


Lemma ToPascalCase_cases s :
  ToPascalCase s =
    match pascalJoined s with
    | c :: rest =>
        if bool_decide (c = "F"%char)
        then match rest with [] => [] | d :: rest' => toUpper d :: rest' end
        else c :: rest
    | [] => []
    end.
Proof.
  unfold ToPascalCase. cbv zeta. destruct (pascalJoined s) as [|c rest]; [done|].
  cbn [length Nat.ltb Nat.leb HasPrefix andb drop lit list_ascii_of_string].
  rewrite andb_true_r. destruct (decide ("F"%char = c)) as [<-|Hc].
  - rewrite !bool_decide_eq_true_2 by done. by destruct rest.
  - rewrite !bool_decide_eq_false_2 by congruence. done.
Qed.


Lemma head_titled segs :
  head (concat (map Title segs)) = toUpper <$> head (concat segs).
Proof.
  induction segs as [|seg segs IH]; [done|]. cbn [map concat].
  destruct seg as [|c seg]; [exact IH|]. reflexivity.
Qed.

Lemma length_titled segs :
  length (concat (map Title segs)) = length (concat segs).
Proof.
  induction segs as [|seg segs IH]; [done|]. cbn [map concat].
  rewrite !length_app, IH. unfold Title. by rewrite Title_from_length.
Qed.

Lemma pascalJoined_nil s : pascalJoined s = [] <-> withoutUnderscores s = [].
Proof.
  rewrite <- concat_Split. pose proof (length_titled (Split s "_")) as Hl.
  rewrite <- pascalJoined_concat in Hl.
  destruct (pascalJoined s), (concat (Split s "_")); cbn [length] in Hl;
    try discriminate Hl; done.
Qed.

Lemma pascalJoined_F s :
  pascalJoined s = ["F"%char] <->
  withoutUnderscores s = ["f"%char] \/ withoutUnderscores s = ["F"%char].
Proof.
  rewrite <- concat_Split.
  pose proof (head_titled (Split s "_")) as Hh.
  pose proof (length_titled (Split s "_")) as Hl.
  rewrite <- pascalJoined_concat in Hh, Hl.
  destruct (pascalJoined s) as [|c [|d rest]],
    (concat (Split s "_")) as [|x [|y w]]; cbn [length] in Hl;
    try discriminate Hl; try (split; [done|by intros [?|?]]).
  cbn [head fmap option_fmap option_map] in Hh. injection Hh as ->. split.
  - intros [= HF]. apply toUpper_F in HF as [-> | ->]; auto.
  - intros [[= ->]|[= ->]]; reflexivity.
Qed.

Lemma ToPascalCase_nil s :
  ToPascalCase s = [] <-> pascalJoined s = [] \/ pascalJoined s = ["F"%char].
Proof.
  rewrite ToPascalCase_cases. destruct (pascalJoined s) as [|c rest].
  - split; [by left|done].
  - case_bool_decide as HF.
    + subst c. destruct rest as [|d rest].
      * split; [by right|done].
      * split; [done|]. by intros [?|?].
    + split; [done|]. intros [?|[= ? ?]]; done.
Qed.


Lemma capitalizeFirst_titled segs :
  capitalizeFirst (concat (map capitalizeFirst segs)) =
    concat (map capitalizeFirst segs).
Proof.
  induction segs as [|seg segs IH]; [done|]. cbn [map concat].
  destruct seg as [|c seg]; [exact IH|]. cbn [capitalizeFirst app]. f_equal.
  destruct c as [[] [] [] [] [] [] [] []]; vm_compute; reflexivity.
Qed.

(** X9.  The marker-letter rule on snake_case names: for a string [s] of
    lower-case letters, digits and underscores, [ToPascalCase] of [f]
    followed by [s] is the PascalCase concatenation of the segments of [s]
    alone; the marker leaves no trace. *)
Theorem X9_marker_letter_is_stripped (s : str) :
  forallb snakeChar s = true ->
  ToPascalCase ("f"%char :: s) = concat (map capitalizeFirst (Split s "_")).
Proof.
  intros Hs. rewrite ToPascalCase_cases.
  rewrite pascalJoined_snake by (cbn [forallb]; by rewrite Hs).
  cbn [Split]. rewrite bool_decide_eq_false_2 by done.
  destruct (Split_nonempty s "_") as (h & t & Hsplit). rewrite Hsplit.
  cbn [map concat capitalizeFirst app].
  change (toUpper "f") with "F"%char. rewrite bool_decide_eq_true_2 by done.
  pose proof (capitalizeFirst_titled t) as Ht.
  destruct h as [|c h]; cbn [app capitalizeFirst]; [|done].
  destruct (concat (map capitalizeFirst t)); [done|exact Ht].
Qed.

Lemma X9_marker_letter_is_stripped_witness :
  ToPascalCase (lit "fcreated_at") = lit "CreatedAt".
Proof.
  change (lit "fcreated_at") with ("f"%char :: lit "created_at").
  rewrite X9_marker_letter_is_stripped by (vm_compute; reflexivity).
  vm_compute. reflexivity.
Defined.

(** ** snake_case *)




Lemma Split_no_sep_id seg sep : sep ∉ seg -> Split seg sep = [seg].
Proof.
  induction seg as [|c seg IH]; [done|].
  intros [Hc Hs]%not_elem_of_cons. cbn [Split].
  rewrite bool_decide_eq_false_2 by congruence. by rewrite IH.
Qed.

Lemma Split_app_sep seg sep tail :
  sep ∉ seg -> Split (seg ++ sep :: tail) sep = seg :: Split tail sep.
Proof.
  induction seg as [|c seg IH]; cbn [app Split].
  - intros _. by rewrite bool_decide_eq_true_2.
  - intros [Hc Hs]%not_elem_of_cons.
    rewrite bool_decide_eq_false_2 by congruence. by rewrite IH.
Qed.

Lemma Split_Join segs sep :
  segs <> [] -> Forall (fun seg => sep ∉ seg) segs ->
  Split (Join segs [sep]) sep = segs.
Proof.
  intros Hne Hsegs. induction Hsegs as [|seg segs Hseg Hsegs IH]; [done|].
  destruct segs as [|seg' segs].
  - cbn [Join]. by apply Split_no_sep_id.
  - rewrite Join_cons_cons. cbn [app]. rewrite Split_app_sep by done.
    f_equal. by apply IH.
Qed.

Lemma wordChar_not_underscore seg :
  forallb wordChar seg = true -> "_"%char ∉ seg.
Proof.
  induction seg as [|c seg IH]; cbn [forallb]; [by intros _ ?%elem_of_nil|].
  intros [Hc Hs]%andb_true_iff. apply not_elem_of_cons. split; [|by apply IH].
  intros <-. by vm_compute in Hc.
Qed.

Lemma Join_snake segs :
  Forall (fun seg => forallb wordChar seg = true) segs ->
  forallb snakeChar (Join segs ["_"%char]) = true.
Proof.
  intros Hsegs.
  assert (Hw : forall seg, forallb wordChar seg = true -> forallb snakeChar seg = true).
  { intros seg. apply forallb_weaken. intros c Hc. unfold snakeChar.
    unfold wordChar in Hc. by rewrite Hc. }
  induction Hsegs as [|seg segs Hseg Hsegs IH]; [done|].
  destruct segs as [|seg' segs].
  - cbn [Join]. by apply Hw.
  - rewrite Join_cons_cons, !forallb_app, (Hw seg Hseg), IH. done.
Qed.

(** X11.  The way from an entity name to its file name and back: for words
    of lower-case letters and digits that each begin with a letter, the
    first not with f, [ToSnakeCase] of the capitalised words written together
    is the words joined by underscores, [ToPascalCase] of that is the name
    again, and [GetOutputPath] names the file [<words>_template.go] in the
    output directory. *)
Theorem X11_entity_name_file_name (os : OS) (outputDir : str) (p : SQLParser)
    (segs : list str) :
  segs <> [] ->
  Forall (fun seg => forallb wordChar seg = true) segs ->
  Forall letterLed segs ->
  (forall rest, head segs <> Some ("f"%char :: rest)) ->
  SecondStructName p = concat (map capitalizeFirst segs) ->
  ToSnakeCase (SecondStructName p) = Join segs ["_"%char] /\
  ToPascalCase (ToSnakeCase (SecondStructName p)) = SecondStructName p /\
  GetOutputPath os outputDir p =
    (Val (filepath_Join os outputDir (Join segs ["_"%char] ++ lit "_template.go")), p).
Proof.
  intros Hne Hw Hl Hf Hp. rewrite Hp.
  assert (Hsnake : ToSnakeCase (concat (map capitalizeFirst segs)) =
                   Join segs ["_"%char]) by by apply ToSnakeCase_segments.
  split; [done|]. split.
  - rewrite Hsnake, ToPascalCase_cases.
    rewrite pascalJoined_snake by by apply Join_snake.
    rewrite Split_Join; [|done|].
    2:{ eapply Forall_impl; [exact Hw|]. apply wordChar_not_underscore. }
    destruct segs as [|seg segs]; [done|].
    apply Forall_cons in Hl as [(c & rest & -> & Hc) _].
    cbn [map concat capitalizeFirst app].
    rewrite bool_decide_eq_false_2; [done|].
    intros HF. apply toUpper_F in HF as [-> | ->].
    + by apply (Hf rest).
    + by vm_compute in Hc.
  - unfold GetOutputPath, bind, gets, ret. cbv beta iota. by rewrite Hp, Hsnake.
Qed.

Lemma X11_entity_name_file_name_witness :
  ToSnakeCase (lit "OrderItem") = lit "order_item" /\
  ToPascalCase (lit "order_item") = lit "OrderItem".
Proof.
  destruct (X11_entity_name_file_name
              (mkOS (fun _ => inl []) (fun _ _ => None) (fun d f => d ++ lit "/" ++ f))
              (lit "out") (NewSQLParser [lit "OrderItemPO"; lit "OrderItem"])
              [lit "order"; lit "item"]) as (Hs & Hp & _).
  - done.
  - repeat constructor.
  - repeat constructor; eexists _, _; (split; [reflexivity|]); reflexivity.
  - intros rest. cbn. intros [=].
  - reflexivity.
  - cbn [SecondStructName NewSQLParser lookup list_lookup default from_option id] in *.
    split; [exact Hs|]. rewrite Hs in Hp. exact Hp.
Defined.

(** ** When generation panics *)

Lemma ToPascalCase_nil_degenerate name :
  ToPascalCase name = [] <-> degenerateName name.
Proof.
  unfold degenerateName.
  rewrite ToPascalCase_nil, pascalJoined_nil, pascalJoined_F. tauto.
Qed.

Lemma existsb_emptyName_iff fields :
  existsb emptyName fields = true <-> exists f, f ∈ fields /\ FieldName f = [].
Proof.
  split; [apply existsb_emptyName_true|].
  intros (f & Hf & Hn). apply existsb_exists. exists f.
  split; [by apply list_elem_of_In|]. unfold emptyName. by apply streq_true.
Qed.

Lemma GenerateStruct_panics os outputDir p e :
  fst (GenerateStruct os outputDir p) = Panicked e <-> renderStruct p = Panicked e.
Proof.
  unfold GenerateStruct, bind, gets, lift, ret, id. cbv beta iota.
  destruct (renderStruct p) as [text|e']; cbn [fst];
    [|split; intros [= ->]; reflexivity].
  destruct (WriteFile os _ text); cbn [fst]; split; discriminate.
Qed.

(** X12.  [GenerateStruct] after [Parse] panics in exactly one situation: an
    entity name is configured and some descriptor has an empty field name,
    either one that was in the parser before or that of a matched column
    whose name, underscores aside, is empty or the single letter f or F.
    The panic is the slice [FieldName[:1]] of an empty string. *)
Theorem X12_generation_panics_iff (os : OS) (outputDir sqlContent : str)
    (p : SQLParser) (e : panic) :
  fst (GenerateStruct os outputDir (snd (Parse sqlContent p))) = Panicked e <->
  e = SliceOutOfRange 1 0 /\ SecondStructName p <> [] /\
  ((exists f, f ∈ Fields p /\ FieldName f = []) \/
   (exists m name, m ∈ FindAllStringSubmatch fieldRe sqlContent /\
                   m !! 1 = Some name /\ degenerateName name)).
Proof.
  rewrite GenerateStruct_panics, renderStruct_spec, Parse_spec.
  cbn [snd SecondStructName Fields].
  assert (Hsecond : SecondStructName (afterTableName sqlContent p) = SecondStructName p).
  { unfold afterTableName.
    destruct (FindStringSubmatch tableNameRe sqlContent); [done|].
    by destruct (streq (StructName p) ""). }
  rewrite Hsecond.
  assert (Hnames :
    (exists f, f ∈ Fields p ++
                 map (columnOfMatch p) (FindAllStringSubmatch fieldRe sqlContent) /\
               FieldName f = []) <->
    (exists f, f ∈ Fields p /\ FieldName f = []) \/
    (exists m name, m ∈ FindAllStringSubmatch fieldRe sqlContent /\
                    m !! 1 = Some name /\ degenerateName name)).
  { pose proof (FindAllStringSubmatch_length fieldRe sqlContent) as Hlen.
    rewrite Forall_forall in Hlen. split.
    - intros (f & [Hf|Hf]%elem_of_app & Hn); [left; eauto|right].
      apply list_elem_of_fmap in Hf as (m & -> & Hm).
      pose proof (Hlen m Hm) as Hl.
      destruct m as [|whole [|name t]]; try done. exists (whole :: name :: t), name.
      split; [done|]. split; [done|]. by apply ToPascalCase_nil_degenerate.
    - intros [(f & Hf & Hn)|(m & name & Hm & Hname & Hd)].
      + exists f. split; [|done]. apply elem_of_app. by left.
      + exists (columnOfMatch p m). split.
        * apply elem_of_app. right. by apply list_elem_of_fmap_2.
        * unfold columnOfMatch. rewrite Hname. by apply ToPascalCase_nil_degenerate. }
  rewrite <- Hnames, <- existsb_emptyName_iff.
  destruct (streq (SecondStructName p) "") eqn:Hs.
  - apply streq_true in Hs. split; [done|]. by intros (_ & ? & _).
  - apply streq_false in Hs.
    destruct (existsb emptyName _); [|by split; [|intros (_ & _ & ?)]].
    split; [by intros [= <-]|]. by intros (-> & _ & _).
Qed.

(** ** What generation writes *)

(** X13.  Without an entity name [GenerateStruct] cannot panic, whatever
    the field names: it renders the PO struct alone, one line per
    descriptor in order, and writes it to [_template.go] in the output
    directory; its only error is the wrapped write error. *)
Theorem X13_no_entity_name_po_only (os : OS) (outputDir : str) (p : SQLParser) :
  SecondStructName p = [] ->
  let text :=
    poHeader p ++ concat (map poFieldLine (Fields p)) ++
    (lit "}" ++ NL ++ NL ++ NL) in
  let fileName := filepath_Join os outputDir (lit "_template.go") in
  renderStruct p = Val text /\
  GenerateStruct os outputDir p =
    (match WriteFile os fileName text with
     | Some err => Val ([], Some (Errorf "写入文件失败: " err))
     | None => Val (fileName, None)
     end, p).
Proof.
  intros Hs. cbv zeta.
  assert (Hr : renderStruct p =
               Val (poHeader p ++ concat (map poFieldLine (Fields p)) ++
                    (lit "}" ++ NL ++ NL ++ NL))).
  { rewrite renderStruct_spec, Hs. reflexivity. }
  split; [exact Hr|].
  unfold GenerateStruct, bind, gets, lift, ret, id. cbv beta iota.
  rewrite Hr, Hs. cbn [ToSnakeCase ToSnakeCase_from app].
  by destruct (WriteFile os _ _).
Qed.

Lemma X13_no_entity_name_po_only_witness :
  exists text,
    renderStruct (snd (Parse sql_f (NewSQLParser [lit "P"]))) = Val text.
Proof.
  eexists.
  refine (proj1 (X13_no_entity_name_po_only
            (mkOS (fun _ => inl []) (fun _ _ => None) (fun d f => d ++ f)) []
            (snd (Parse sql_f (NewSQLParser [lit "P"]))) _)).
  vm_compute. reflexivity.
Defined.

(** X14.  [GenerateStruct] succeeds exactly when rendering completes and
    [WriteFile] accepts the rendered text, and then the path it returns is
    the one [GetOutputPath] gives for the same directory, which is where
    the text was written. *)
Theorem X14_generate_returns_output_path (os : OS) (outputDir : str)
    (p : SQLParser) (fileName : str) :
  fst (GenerateStruct os outputDir p) = Val (fileName, None) <->
  fst (GetOutputPath os outputDir p) = Val fileName /\
  exists text, renderStruct p = Val text /\ WriteFile os fileName text = None.
Proof.
  unfold GenerateStruct, GetOutputPath, bind, gets, lift, ret, id.
  cbv beta iota. cbn [fst].
  destruct (renderStruct p) as [text|e]; cbn [fst].
  - destruct (WriteFile os _ text) as [err|] eqn:Hw; cbn [fst].
    + split; [done|]. intros ([= <-] & text' & [= <-] & Hw').
      enough (Some err = None) by done. rewrite <- Hw. exact Hw'.
    + split.
      * intros [= <-]. split; [done|]. by exists text.
      * by intros ([= <-] & _).
  - split; [done|]. by intros (_ & text & ? & _).
Qed.

(** ** The type tables and the conversions *)

Lemma typeKeywords_cover k :
  k ∈ typeKeywords \/
  (defaultTypeMappings !! k = None /\ defaultNullableTypeMappings !! k = None).
Proof.
  destruct (decide (k ∈ typeKeywords)) as [Hk|Hk]; [by left|right].
  split; apply not_elem_of_list_to_map_1; exact Hk.
Qed.

(** X15.  The entity struct does not depend on nullability: for every type
    keyword, in the tables or not, the entity type derived from the nullable
    table's entry is the one derived from the plain table's entry; and the
    two tables [NewSQLParser] installs have the same keywords. *)
Theorem X15_entity_type_ignores_nullability (k : str) (names : list str) :
  let p := NewSQLParser names in
  entityFieldType (mapIndex (NullableTypeMappings p) k) =
    entityFieldType (mapIndex (TypeMappings p) k) /\
  (is_Some (NullableTypeMappings p !! k) <-> is_Some (TypeMappings p !! k)) /\
  (is_Some (TypeMappings p !! k) <-> k ∈ typeKeywords).
Proof.
  cbv zeta. cbn [NewSQLParser NullableTypeMappings TypeMappings].
  destruct (typeKeywords_cover k) as [Hk|[H1 H2]].
  - unfold typeKeywords in Hk.
    repeat (apply elem_of_cons in Hk as [->|Hk];
            [split; [vm_compute; reflexivity|];
             split; split; intros _;
               first [by vm_compute; eexists
                     |unfold typeKeywords; set_solver]|]).
    by apply elem_of_nil in Hk.
  - unfold mapIndex. rewrite H1, H2. split; [reflexivity|].
    split; [done|]. split; [by intros [? ?]|].
    intros Hk. destruct (decide (k ∈ typeKeywords)) as [Hk'|Hk']; [|done].
    exfalso. revert H1. unfold typeKeywords in Hk'.
    repeat (apply elem_of_cons in Hk' as [->|Hk']; [by vm_compute|]).
    by apply elem_of_nil in Hk'.
Qed.

Lemma app_ne_self_r (a b : str) : b <> [] -> a ++ b <> a.
Proof.
  intros Hb H. apply (f_equal length) in H. rewrite length_app in H.
  destruct b; [done|]. cbn [length] in H. lia.
Qed.

Lemma wrap_ne_self (a x b : str) : a <> [] -> a ++ x ++ b <> x.
Proof.
  intros Ha H. apply (f_equal length) in H. rewrite !length_app in H.
  destruct a; [done|]. cbn [length] in H. lia.
Qed.

Lemma wrap4_ne_self (a b c d x e : str) :
  e <> [] -> a ++ b ++ c ++ d ++ x ++ e <> x.
Proof.
  intros He H. apply (f_equal length) in H. rewrite !length_app in H.
  destruct e; [done|]. cbn [length] in H. lia.
Qed.

(** X16.  The two conversion functions special-case the same PO types: the
    PO-to-entity call reads something other than the bare field, and the
    entity-to-PO entry wraps the getter, exactly for the six types
    [sql.NullString], [datetime.NullDateTime], [datetime.DateTime],
    [sql.NullInt32], [sql.NullInt64] and [sql.NullFloat64]; the wrapper
    [sql.NullFloat32] is in neither. *)
Theorem X16_conversions_cover_same_types (field : FieldMeta) (privateField : str) :
  (toEntityAccess field <> FieldName field <-> FieldType field ∈ convertedTypes) /\
  (toPoAccess field privateField <> lit "e." ++ Title privateField ++ lit "()" <->
     FieldType field ∈ convertedTypes) /\
  lit "sql.NullFloat32" ∉ convertedTypes.
Proof.
  assert (Hin : forall t, t ∈ convertedTypes <->
            t = lit "sql.NullString" \/ t = lit "datetime.NullDateTime" \/
            t = lit "datetime.DateTime" \/ t = lit "sql.NullInt32" \/
            t = lit "sql.NullInt64" \/ t = lit "sql.NullFloat64").
  { intros t. unfold convertedTypes. rewrite !elem_of_cons, elem_of_nil. tauto. }
  split; [|split].
  - rewrite Hin. unfold toEntityAccess.
    repeat match goal with
    | |- context [streq (FieldType field) ?t] =>
        let E := fresh "E" in
        destruct (streq (FieldType field) t) eqn:E;
        [apply streq_true in E;
         split; [intros _; tauto|intros _; by apply app_ne_self_r]
        |apply streq_false in E]
    end.
    split; [done|]. tauto.
  - rewrite Hin. unfold toPoAccess.
    repeat match goal with
    | |- context [streq (FieldType field) ?t] =>
        let E := fresh "E" in
        destruct (streq (FieldType field) t) eqn:E;
        [apply streq_true in E|apply streq_false in E]
    end; cbn [orb];
    try (split; [intros _; tauto
                |intros _; first [by apply wrap_ne_self|by apply wrap4_ne_self]]).
    split; [done|tauto].
  - unfold convertedTypes. rewrite !elem_of_cons, elem_of_nil.
    intros H. repeat destruct H as [H|H]; done.
Qed.

(** ** Matches stand side by side in the input *)

Lemma interleave_cons c gaps pieces tail :
  length gaps = length pieces ->
  exists gaps' tail',
    length gaps' = length gaps /\
    c :: interleave gaps pieces tail = interleave gaps' pieces tail'.
Proof.
  intros Hlen. destruct gaps as [|g gaps], pieces as [|w pieces]; try done.
  - by exists [], (c :: tail).
  - by exists ((c :: g) :: gaps), tail.
Qed.

Lemma matchAt_whole re prev s m rest :
  matchAt re prev s = Some (m, rest) -> s = wholeOf m ++ rest.
Proof.
  intros H. pose proof (matchAt_length _ _ _ _ _ H) as Hlen.
  apply matchAt_sound in H as (w & cs' & -> & _ & ->).
  rewrite length_insert in Hlen. unfold wholeOf.
  rewrite list_lookup_insert_eq by lia. done.
Qed.

Lemma findAll_interleave re s : forall skip abut prev,
  exists gaps tail,
    length gaps = length (findAll re skip abut prev s) /\
    drop skip s = interleave gaps (map wholeOf (findAll re skip abut prev s)) tail.
Proof.
  induction s as [|c s IH]; intros skip abut prev.
  - destruct skip as [|n]; cbn [findAll].
    + destruct (matchAt re prev []) as [[m rest]|] eqn:E; [|by exists [], []].
      destruct (_ && _); [by exists [], []|].
      apply matchAt_whole in E. symmetry in E. apply app_eq_nil in E as [E ->].
      exists [[]], []. cbn. by rewrite E.
    + by exists [], [].
  - destruct skip as [|n]; cbn [findAll drop].
    + assert (Hskip : forall abut',
        exists gaps tail,
          length gaps = length (findAll re 0 abut' (Some c) s) /\
          c :: s = interleave gaps (map wholeOf (findAll re 0 abut' (Some c) s)) tail).
      { intros abut'. destruct (IH 0 abut' (Some c)) as (gaps & tail & Hlen & Hs).
        cbn [drop] in Hs.
        destruct (interleave_cons c gaps
                    (map wholeOf (findAll re 0 abut' (Some c) s)) tail)
          as (gaps' & tail' & Hlen' & Hc); [by rewrite length_map|].
        exists gaps', tail'. split; [congruence|]. by rewrite <- Hc, <- Hs. }
      destruct (matchAt re prev (c :: s)) as [[m rest]|] eqn:E; [|apply Hskip].
      pose proof (matchAt_whole _ _ _ _ _ E) as Hw.
      assert (Hwidth : length (c :: s) - length rest = length (wholeOf m)).
      { rewrite Hw at 1. rewrite length_app. lia. }
      rewrite Hwidth.
      destruct (wholeOf m) as [|c' w] eqn:Hm; cbn [length].
      * rewrite bool_decide_eq_true_2 by done. cbn [andb Nat.sub].
        destruct abut; [apply Hskip|].
        destruct (Hskip (bool_decide (0 = 1))) as (gaps & tail & Hlen & Hs).
        exists ([] :: gaps), tail. cbn [length map interleave app].
        rewrite Hm. cbn [app]. split; [by rewrite Hlen|done].
      * rewrite bool_decide_eq_false_2 by done. cbn [andb].
        replace (S (length w) - 1) with (length w) by lia.
        destruct (IH (length w) (bool_decide (S (length w) = 1)) (Some c))
          as (gaps & tail & Hlen & Hs).
        exists ([] :: gaps), tail. cbn [length map interleave app].
        rewrite Hm, <- Hs. split; [by rewrite Hlen|].
        cbn [app] in Hw. injection Hw as <- ->.
        by rewrite drop_app_length.
    + apply IH.
Qed.

(** X17.  The column matches [Parse] works through are disjoint pieces of
    the input in text order: the input is a gap, the first match, a gap,
    the second match, and so on, then a tail. *)
Theorem X17_column_matches_in_text_order (sqlContent : str) :
  exists gaps tail,
    length gaps = length (FindAllStringSubmatch fieldRe sqlContent) /\
    sqlContent =
      interleave gaps (map wholeOf (FindAllStringSubmatch fieldRe sqlContent)) tail /\
    Forall (fun m => exists name ty g3 other comment,
                       m = [wholeOf m; name; ty; g3; other; comment] /\
                       isColumnText (wholeOf m) name ty g3 other comment)
           (FindAllStringSubmatch fieldRe sqlContent).
Proof.
  destruct (findAll_interleave fieldRe sqlContent 0 false None)
    as (gaps & tail & Hlen & Hs).
  exists gaps, tail. split; [exact Hlen|]. split; [exact Hs|].
  apply Forall_forall. intros m Hm.
  apply FindAllStringSubmatch_fieldRe in Hm
    as (pre & post & whole & name & ty & g3 & other & comment & _ & -> & Hcol).
  by exists name, ty, g3, other, comment.
Qed.
